(** * The session-scoped aggregation pipeline of [wildfire_agent/main_agent.py]

    A shallow embedding of [_get_session_memory],
    [load_mock_wildfire_costs], [aggregate_costs],
    [compact_aggregated_costs], [build_cost_table], [get_last_summary] and
    [google_search], with the process-wide [SESSION_MEMORY] dict threaded
    as explicit state and raised exceptions as results.

    - Python floats are IEEE-754 binary64 numbers; they are Rocq's primitive
      floats, the same format with the same rounding.
    - A record or row is a dict; the model keeps the four keys the pipeline
      reads, each present or absent.  Labels are [str] or [None], numeric
      entries are the scalars a caller or a JSON text can supply.
    - [float] on a [str] and [json.loads] are parameters of the development.
    - Logging has no part in the results or in the store and is left out. *)

From Stdlib Require Import ZArith Lia Floats Ascii String DecimalString.
From stdpp Require Import gmap strings list sorting.

Local Open Scope Z_scope.
Set Default Proof Using "Type".

(** ** Exceptions and results *)

(** The exception classes the pipeline can raise. *)
Inductive pyerr : Type :=
  | TypeError
  | ValueError
  | OverflowError
  | KeyError
  | AttributeError.

(** The outcome of a Python call: a returned value or a raised exception. *)
Inductive result (A : Type) : Type :=
  | Ok (a : A)
  | Raise (e : pyerr).
Arguments Ok {A} a.
Arguments Raise {A} e.

Definition bind {A B : Type} (r : result A) (k : A -> result B) : result B :=
  match r with
  | Ok a => k a
  | Raise e => Raise e
  end.

Notation "'do' x <- r ;; k" := (bind r (fun x => k))
  (at level 10, x name, r at level 99, k at level 200).

Definition is_ok {A : Type} (r : result A) : bool :=
  match r with Ok _ => true | Raise _ => false end.

(** [for x in l: acc = step(acc, x)], stopping at the first exception. *)
Fixpoint foldM {A B : Type} (step : B -> A -> result B) (l : list A) (acc : B)
  : result B :=
  match l with
  | [] => Ok acc
  | x :: l' => do acc' <- step acc x ;; foldM step l' acc'
  end.

(** [[f(x) for x in l]], stopping at the first exception. *)
Fixpoint mapM {A B : Type} (f : A -> result B) (l : list A) : result (list B) :=
  match l with
  | [] => Ok []
  | x :: l' => do y <- f x ;; do ys <- mapM f l' ;; Ok (y :: ys)
  end.

(** ** Python values *)

(** The value of a ["region"] or ["category"] entry: a [str] or [None]. *)
Inductive label : Type :=
  | LNone
  | LStr (s : string).

#[global] Instance label_eq_dec : EqDecision label.
Proof. solve_decision. Defined.

(** The value of a numeric entry (["cost"], ["hours"], ["total_cost"]) as a
    caller or a JSON document can supply it. *)
Inductive value : Type :=
  | VNone
  | VBool (b : bool)
  | VInt (z : Z)
  | VFloat (f : float)
  | VStr (s : string).

(** A raw cost record: a dict of which the pipeline reads four keys.  [None]
    in a field means that the key is absent from the dict. *)
Record record : Type := mkRecord {
  rec_region : option label;
  rec_category : option label;
  rec_cost : option value;
  rec_hours : option value
}.

(** An aggregated row: a dict with the keys ["region"], ["category"],
    ["total_cost"] and ["hours"], each of which may be absent. *)
Record row : Type := mkRow {
  region : option label;
  category : option label;
  total_cost : option value;
  hours : option value
}.

(** [d.get(k, default)] on an optional entry. *)
Definition get_default {A : Type} (entry : option A) (default : A) : A :=
  match entry with Some v => v | None => default end.

(** [d[k]]: [KeyError] when the key is absent. *)
Definition getitem {A : Type} (entry : option A) : result A :=
  match entry with Some v => Ok v | None => Raise KeyError end.

(** ** Floats *)

(** [float(n)] for an [int]: the nearest binary64 number, ties to even;
    [OverflowError] when [n] is too large in magnitude. *)
Definition int_to_float (z : Z) : result float :=
  let f := SF2Prim (binary_normalize prec emax z 0 false) in
  if is_infinity f then Raise OverflowError else Ok f.

(** [bool] is a subclass of [int]: [True] is 1 and [False] is 0. *)
Definition bool_to_Z (b : bool) : Z := if b then 1 else 0.

(** The number a value stands for in arithmetic: an exact integer or a
    float; [None] for values that are not numbers. *)
Definition numeric (v : value) : option (Z + float) :=
  match v with
  | VBool b => Some (inl (bool_to_Z b))
  | VInt z => Some (inl z)
  | VFloat f => Some (inr f)
  | VNone | VStr _ => None
  end.

(** Exact comparison of an integer with a float, as CPython compares an
    [int] with a [float]; [None] when the float is NaN. *)
Definition compare_int_float (z : Z) (f : float) : option comparison :=
  match Prim2SF f with
  | S754_nan => None
  | S754_zero _ => Some (z ?= 0)
  | S754_infinity s => Some (if s then Gt else Lt)
  | S754_finite s m e =>
      let sm := if s then Z.neg m else Z.pos m in
      Some (if 0 <=? e then z ?= sm * 2 ^ e else z * 2 ^ (- e) ?= sm)
  end.

(** ** Number formatting *)

Definition nl : string := String "010"%char EmptyString.

(** Decimal digits of a natural number. *)
Definition digits (n : Z) : string :=
  NilZero.string_of_uint (N.to_uint (Z.to_N n)).

(** Group a digit string in threes from the right, as the [,] format option
    does. *)
Fixpoint group3 (fuel : nat) (s : string) : string :=
  match fuel with
  | O => s
  | S fuel' =>
      let n := String.length s in
      if (n <=? 3)%nat then s
      else group3 fuel' (substring 0 (n - 3) s) +:+ "," +:+ substring (n - 3) 3 s
  end.

Definition thousands (s : string) : string := group3 (String.length s) s.

(** [n] zeros. *)
Fixpoint zeros (n : nat) : string :=
  match n with
  | O => ""
  | S n' => "0" +:+ zeros n'
  end.

(** Left-pad a digit string with zeros to [d] characters. *)
Definition zero_pad (d : nat) (s : string) : string :=
  zeros (d - String.length s) +:+ s.

(** [round(q)] to the nearest integer, ties to even, for [q = num / den]
    with [den > 0] and [num >= 0]. *)
Definition round_half_even (num den : Z) : Z :=
  let q := num / den in
  let r := num mod den in
  match 2 * r ?= den with
  | Lt => q
  | Gt => q + 1
  | Eq => if Z.even q then q else q + 1
  end.

(** The magnitude [m * 2^e] scaled by [10^d] and rounded to an integer. *)
Definition scaled_round (d : nat) (m : positive) (e : Z) : Z :=
  let num := Z.pos m * 10 ^ Z.of_nat d in
  if 0 <=? e then num * 2 ^ e else round_half_even num (2 ^ (- e)).

(** [format(x, ".df")] and, with [comma], [format(x, ",.df")] for a float:
    the exact binary value rounded half-even to [d] decimals. *)
Definition format_fixed (comma : bool) (d : nat) (x : float) : string :=
  match Prim2SF x with
  | S754_nan => "nan"
  | S754_infinity s => if s then "-inf" else "inf"
  | S754_zero s =>
      (if s then "-" else "") +:+ "0" +:+
      (if (0 <? d)%nat then "." +:+ zero_pad d "" else "")
  | S754_finite s m e =>
      let n := scaled_round d m e in
      let ip := digits (n / 10 ^ Z.of_nat d) in
      (if s then "-" else "") +:+
      (if comma then thousands ip else ip) +:+
      (if (0 <? d)%nat
       then "." +:+ zero_pad d (digits (n mod 10 ^ Z.of_nat d)) else "")
  end.

(** [f"{x:,.2f}"] on a float. *)
Definition format_money (x : float) : string := format_fixed true 2 x.

(** [f"{x:.1f}"] on a float. *)
Definition format_hours (x : float) : string := format_fixed false 1 x.

(** [f"{v:,.2f}"] on a raw value: an [int] or [bool] is converted to a float
    first, a [str] has no format code [f] and [None] accepts no format
    specification. *)
Definition format_money_value (v : value) : result string :=
  match v with
  | VFloat f => Ok (format_money f)
  | VInt z => do f <- int_to_float z ;; Ok (format_money f)
  | VBool b => do f <- int_to_float (bool_to_Z b) ;; Ok (format_money f)
  | VStr _ => Raise ValueError
  | VNone => Raise TypeError
  end.

(** [f"{l}"] on a label: [str(None)] is the text [None]. *)
Definition format_label (l : label) : string :=
  match l with
  | LNone => "None"
  | LStr s => s
  end.

(** ** Builtins on raw values *)

(** [a > b] on raw values, as [max] evaluates it: numbers compare by their
    exact value, two [str] lexicographically, anything else is a
    [TypeError]. *)
Definition py_gt (a b : value) : result bool :=
  match a, b with
  | VStr s, VStr t => Ok (String.ltb t s)
  | _, _ =>
      match numeric a, numeric b with
      | Some (inl x), Some (inl y) => Ok (y <? x)
      | Some (inr f), Some (inr g) => Ok (PrimFloat.ltb g f)
      | Some (inl x), Some (inr g) =>
          Ok (match compare_int_float x g with Some Gt => true | _ => false end)
      | Some (inr f), Some (inl y) =>
          Ok (match compare_int_float y f with Some Lt => true | _ => false end)
      | _, _ => Raise TypeError
      end
  end.

(** [a + b] on raw values as [sum] evaluates it, starting from the [int] 0:
    integers add exactly, an integer meeting a float is converted first. *)
Definition py_add (a b : value) : result value :=
  match numeric a, numeric b with
  | Some (inl x), Some (inl y) => Ok (VInt (x + y))
  | Some (inr f), Some (inr g) => Ok (VFloat (f + g))
  | Some (inl x), Some (inr g) => do f <- int_to_float x ;; Ok (VFloat (f + g))
  | Some (inr f), Some (inl y) => do g <- int_to_float y ;; Ok (VFloat (f + g))
  | _, _ => Raise TypeError
  end.

(** ** Sorting *)

(** [sorted(l, key=..., reverse=True)] after the keys have been computed:
    a stable sort into descending key order that compares keys with [<]
    only.  It is written as a stable insertion sort; every stable sort
    returns the same list whenever [<] orders the keys (no NaN among
    them).  With a NaN among the keys CPython's merge sort may leave the
    rows in another order than this one; the result is still a
    rearrangement of the input, and nothing more is used of it below. *)
Fixpoint insert_desc {A : Type} (x : float * A) (l : list (float * A))
  : list (float * A) :=
  match l with
  | [] => [x]
  | y :: l' =>
      if PrimFloat.ltb (fst x) (fst y) then y :: insert_desc x l' else x :: l
  end.

Fixpoint sort_desc {A : Type} (l : list (float * A)) : list (float * A) :=
  match l with
  | [] => []
  | x :: l' => insert_desc x (sort_desc l')
  end.

(** An earlier element is never strictly below a later one. *)
Definition desc {A : Type} : relation (float * A) :=
  fun a b => PrimFloat.ltb (fst a) (fst b) = false.

(** No key is NaN. *)
Definition no_nan {A : Type} (l : list (float * A)) : Prop :=
  Forall (fun a => is_nan (fst a) = false) l.

(** The elements whose key equals [v]. *)
Definition tied {A : Type} (v : float) (x : float * A) : Prop :=
  PrimFloat.eqb (fst x) v = true.

#[global] Instance tied_dec {A : Type} (v : float) (x : float * A)
  : Decision (tied v x).
Proof. unfold tied. apply _. Defined.

(** [l[:k]] for an integer [k]: a negative [k] counts from the end. *)
Definition slice_to {A : Type} (k : Z) (l : list A) : list A :=
  if k <? 0 then take (length l - Z.to_nat (- k)) l else take (Z.to_nat k) l.

(** ** Session store *)

(** One session's memory dict; [None] is Python's [None]. *)
Record SessionMemory : Type := mkMemory {
  last_year : option Z;
  last_raw_records : option (list record);
  last_aggregated : option (list row);
  last_compacted : option (list row);
  last_summary : option string;
  last_search_query : option string;
  last_search_results : option string
}.

(** The memory dict a session starts with. *)
Definition new_memory : SessionMemory :=
  mkMemory None None None None None None None.

Definition set_last_year (v : Z) (m : SessionMemory) : SessionMemory :=
  mkMemory (Some v) (last_raw_records m) (last_aggregated m)
    (last_compacted m) (last_summary m) (last_search_query m)
    (last_search_results m).

Definition set_last_raw_records (v : list record) (m : SessionMemory)
  : SessionMemory :=
  mkMemory (last_year m) (Some v) (last_aggregated m) (last_compacted m)
    (last_summary m) (last_search_query m) (last_search_results m).

Definition set_last_aggregated (v : list row) (m : SessionMemory)
  : SessionMemory :=
  mkMemory (last_year m) (last_raw_records m) (Some v) (last_compacted m)
    (last_summary m) (last_search_query m) (last_search_results m).

Definition set_last_compacted (v : list row) (m : SessionMemory)
  : SessionMemory :=
  mkMemory (last_year m) (last_raw_records m) (last_aggregated m) (Some v)
    (last_summary m) (last_search_query m) (last_search_results m).

Definition set_last_summary (v : string) (m : SessionMemory) : SessionMemory :=
  mkMemory (last_year m) (last_raw_records m) (last_aggregated m)
    (last_compacted m) (Some v) (last_search_query m) (last_search_results m).

Definition set_last_search (q res : string) (m : SessionMemory)
  : SessionMemory :=
  mkMemory (last_year m) (last_raw_records m) (last_aggregated m)
    (last_compacted m) (last_summary m) (Some q) (Some res).

(** [SESSION_MEMORY]: session identifier to memory dict. *)
Abbreviation store := (gmap string SessionMemory).

(** [_get_session_memory]: the session's memory, created with every field
    [None] when the identifier is new.  The caller receives the dict that
    is in the store, so the second component is the store after the call. *)
Definition _get_session_memory (session_id : string) (st : store)
  : SessionMemory * store :=
  match st !! session_id with
  | Some mem => (mem, st)
  | None => (new_memory, <[session_id := new_memory]> st)
  end.

(** [mem = _get_session_memory(session_id); mem[field] = v], with the
    assignment given as an update of the memory. *)
Definition write_memory (session_id : string)
    (upd : SessionMemory -> SessionMemory) (st : store) : store :=
  let '(mem, st1) := _get_session_memory session_id st in
  <[session_id := upd mem]> st1.

(** ** Inputs of the reporter *)

(** What [json.loads] followed by [len] gives for a text that decodes:
    a list of row dicts, or some other value that has a length (a [str],
    a dict, a list holding something that is not a dict), of which only
    the emptiness matters. *)
Inductive decoded : Type :=
  | Rows (rows : list row)
  | Other (empty : bool).

(** The argument of [build_cost_table]: a list of rows or a JSON text. *)
Inductive table_input : Type :=
  | Structured (rows : list row)
  | Serialized (text : string).

(** What a call of [build_cost_table] computes before it touches the
    store: one of its fixed texts, or a report. *)
Inductive outcome : Type :=
  | Fixed (text : string)
  | Report (text : string).

(** [sep.join(lines)]. *)
Fixpoint join (sep : string) (lines : list string) : string :=
  match lines with
  | [] => ""
  | [l] => l
  | l :: rest => l +:+ sep +:+ join sep rest
  end.

(** ** The lookup service *)

Module Lookup.

(** The environment variables read when the module is loaded; [None] is a
    variable that is not set. *)
Record environ : Type := mkEnviron {
  GOOGLE_SEARCH_API_KEY : option string;
  GOOGLE_API_KEY : option string;
  GOOGLE_SEARCH_CX : option string;
  GOOGLE_CSE_ID : option string
}.

(** The truth value of a value of [os.getenv]: [None] and the empty text
    are false. *)
Definition truthy (a : option string) : bool :=
  match a with
  | Some (String _ _) => true
  | _ => false
  end.

(** [a or b]. *)
Definition py_or (a b : option string) : option string :=
  if truthy a then a else b.

Definition SEARCH_API_KEY (env : environ) : option string :=
  py_or (GOOGLE_SEARCH_API_KEY env) (GOOGLE_API_KEY env).

Definition SEARCH_CSE_ID (env : environ) : option string :=
  py_or (GOOGLE_SEARCH_CX env) (GOOGLE_CSE_ID env).

(** One entry of ["items"] in the decoded response: a dict of which three
    text entries are read, each present or absent. *)
Record item : Type := mkItem {
  title : option string;
  snippet : option string;
  link : option string
}.

(** What the [try] block ends with: an exception, with its text, or the
    decoded response, an object whose ["items"], when present, is a list. *)
Inductive response : Type :=
  | RequestError (message : string)
  | Payload (items : option (list item)).

(** A text from its UTF-8 bytes. *)
Definition bytes (l : list nat) : string :=
  fold_right (fun n s => String (ascii_of_nat n) s) EmptyString l.

(** The characters [str.strip] removes, in UTF-8: U+0009 to U+000D,
    U+001C to U+0020, U+0085, U+00A0, U+1680, U+2000 to U+200A, U+2028,
    U+2029, U+202F, U+205F and U+3000. *)
Definition whitespace : list string :=
  map bytes
    [ [9]; [10]; [11]; [12]; [13]; [28]; [29]; [30]; [31]; [32];
      [194; 133]; [194; 160]; [225; 154; 128];
      [226; 128; 128]; [226; 128; 129]; [226; 128; 130]; [226; 128; 131];
      [226; 128; 132]; [226; 128; 133]; [226; 128; 134]; [226; 128; 135];
      [226; 128; 136]; [226; 128; 137]; [226; 128; 138];
      [226; 128; 168]; [226; 128; 169]; [226; 128; 175];
      [226; 129; 159]; [227; 128; 128] ]%nat.

Fixpoint drop_chars (n : nat) (s : string) : string :=
  match n, s with
  | S n', String _ s' => drop_chars n' s'
  | _, _ => s
  end.

(** Remove leading characters as long as one of [ws] starts the text. *)
Fixpoint lstrip_with (ws : list string) (fuel : nat) (s : string) : string :=
  match fuel with
  | O => s
  | S fuel' =>
      match List.find (fun w => String.prefix w s) ws with
      | Some w => lstrip_with ws fuel' (drop_chars (String.length w) s)
      | None => s
      end
  end.

Definition lstrip (s : string) : string :=
  lstrip_with whitespace (String.length s) s.

Definition rstrip (s : string) : string :=
  String.rev
    (lstrip_with (map String.rev whitespace) (String.length s) (String.rev s)).

(** [s.strip()]. *)
Definition strip (s : string) : string := rstrip (lstrip s).

(** [s.replace("\n", " ")]. *)
Fixpoint replace_newlines (s : string) : string :=
  match s with
  | EmptyString => EmptyString
  | String c s' =>
      String (if Ascii.eqb c "010" then " "%char else c) (replace_newlines s')
  end.

(** One pass of the loop over the items: the bullet appended. *)
Definition bullet (it : item) : string :=
  let title := get_default (title it) "Untitled result" in
  let snippet := strip (replace_newlines (get_default (snippet it) "")) in
  let link := get_default (link it) "" in
  "- **" +:+ title +:+ "** – " +:+ snippet +:+ " (" +:+ link +:+ ")".

Definition not_configured_text : string :=
  "Google Custom Search is not configured. " +:+
  "Set GOOGLE_SEARCH_API_KEY (or GOOGLE_API_KEY) and " +:+
  "GOOGLE_SEARCH_CX (or GOOGLE_CSE_ID) in wildfire_agent/.env.".

(** [google_search]: [resp] is what the request of the [try] block comes
    to; it is looked at only when the credentials are there. *)
Definition google_search (env : environ) (resp : response)
    (query session_id : string) (st : store) : string * store :=
  if negb (truthy (SEARCH_API_KEY env)) || negb (truthy (SEARCH_CSE_ID env))
  then (not_configured_text, st)
  else
    match resp with
    | RequestError e => ("Error calling Google Custom Search: " +:+ e, st)
    | Payload data_items =>
        match take 3 (get_default data_items []) with
        | [] => ("No search results found.", st)
        | items =>
            let bullets := map bullet items in
            let result_text :=
              "Top results from Google Search:" +:+ nl +:+ nl +:+
              join nl bullets in
            (result_text,
             write_memory session_id (set_last_search query result_text) st)
        end
    end.

(** Both credentials are there: for each, the preferred variable or its
    fallback is set to a text that is not empty. *)
Definition has_credentials (env : environ) : bool :=
  (truthy (GOOGLE_SEARCH_API_KEY env) || truthy (GOOGLE_API_KEY env)) &&
  (truthy (GOOGLE_SEARCH_CX env) || truthy (GOOGLE_CSE_ID env)).

(** The items a response gives to render: the first three, if any. *)
Definition found_items (resp : response) : list item :=
  match resp with
  | Payload (Some items) => take 3 items
  | _ => []
  end.

(** The call gets as far as the store. *)
Definition writes (env : environ) (resp : response) : bool :=
  has_credentials env &&
  match found_items resp with [] => false | _ => true end.

End Lookup.

(** The synthetic dataset of [load_mock_wildfire_costs]. *)
#[warnings="-inexact-float"]
Definition mock_data : list record :=
  let r (reg cat : string) (c h : float) :=
    mkRecord (Some (LStr reg)) (Some (LStr cat))
      (Some (VFloat c)) (Some (VFloat h)) in
  [ r "South" "aircraft" 176870.51%float 116.9%float;
    r "Central" "aircraft" 161923.60%float 102.7%float;
    r "Northwest" "aircraft" 154527.82%float 94.8%float;
    r "Northeast" "aircraft" 131905.83%float 123.2%float;
    r "Central" "personnel" 97266.43%float 0%float;
    r "Northeast" "personnel" 84489.65%float 0%float;
    r "Northwest" "personnel" 76568.23%float 0%float;
    r "South" "personnel" 74011.79%float 0%float;
    r "Central" "equipment" 66877.06%float 0%float;
    r "Northeast" "equipment" 61460.99%float 0%float;
    r "Northwest" "equipment" 58812.48%float 0%float;
    r "South" "equipment" 49164.94%float 0%float ].

(** ** Stand-ins for two builtins in the closed examples *)

Definition digit_value (c : ascii) : option Z :=
  let n := Z.of_nat (nat_of_ascii c) in
  if (48 <=? n) && (n <=? 57) then Some (n - 48) else None.

Fixpoint digits_value (s : string) (acc : Z) : option Z :=
  match s with
  | EmptyString => Some acc
  | String c s' =>
      match digit_value c with
      | Some d => digits_value s' (10 * acc + d)
      | None => None
      end
  end.

(** [float(s)] restricted to the texts of the examples: a non-empty run
    of ASCII digits denotes that integer, any other text counts as one that
    [float] rejects. *)
Definition float_of_digits (s : string) : option float :=
  match s with
  | EmptyString => None
  | _ =>
      match digits_value s 0 with
      | Some z => Some (SF2Prim (binary_normalize prec emax z 0 false))
      | None => None
      end
  end.

(** [json.loads] restricted to the texts of the examples: the empty array
    and the empty object decode, any other text counts as one that does
    not. *)
Definition json_loads_literals (text : string) : option decoded :=
  if String.eqb text "[]" then Some (Rows [])
  else if String.eqb text "{}" then Some (Other true)
  else None.

(** The rows and records of the examples. *)
Definition float_row (reg cat : string) (tc h : float) : row :=
  mkRow (Some (LStr reg)) (Some (LStr cat)) (Some (VFloat tc)) (Some (VFloat h)).

Definition float_record (reg cat : string) (c h : float) : record :=
  mkRecord (Some (LStr reg)) (Some (LStr cat)) (Some (VFloat c)) (Some (VFloat h)).

(** The records of the end-to-end scenario. *)
Definition scenario_records : list record :=
  [ float_record "South" "aircraft" 100 5;
    float_record "South" "aircraft" 50 2;
    float_record "North" "personnel" 30 0 ].

Definition scenario_rows : list row :=
  [ float_row "South" "aircraft" 150 7;
    float_row "North" "personnel" 30 0 ].

(** Records whose costs do not add up exactly in binary64. *)
Definition rounding_records : list record :=
  [ float_record "B" "x" 1 0;
    float_record "A" "x" 1e16 0;
    float_record "A" "x" 1 0;
    float_record "B" "x" 1 0 ].

(** Non-negative costs at the top of the binary64 range: the largest
    float but one (1.7976931348623155e308), and [2^970] and its successor
    (9.9792015476735991e291 and 9.9792015476736013e291), half the spacing
    [2^971] of the floats up there. *)
Definition overflow_records : list record :=
  [ float_record "B" "x" 0x1p+970 0;
    float_record "A" "x" 0x1.ffffffffffffep+1023 0;
    float_record "A" "x" 0x1.0000000000001p+970 0 ].

(** Costs that cancel: a refund as large as a cost. *)
Definition cancelling_records : list record :=
  [ float_record "A" "x" 1e16 0;
    float_record "B" "x" (-1e16) 0;
    float_record "A" "x" 1 0;
    float_record "B" "x" 1 0 ].

Section Pipeline.

(** [float(s)] on a [str]: the float the text denotes, [None] when Python
    raises [ValueError]. *)
Variable str_to_float : string -> option float.

(** [json.loads(text)] followed by [len]: [None] when either raises. *)
Variable json_loads : string -> option decoded.

(** [float(v)]. *)
Definition py_float (v : value) : result float :=
  match v with
  | VFloat f => Ok f
  | VInt z => int_to_float z
  | VBool b => int_to_float (bool_to_Z b)
  | VStr s =>
      match str_to_float s with
      | Some f => Ok f
      | None => Raise ValueError
      end
  | VNone => Raise TypeError
  end.

(** *** [load_mock_wildfire_costs] *)

Definition load_mock_wildfire_costs (year : Z) (session_id : string)
    (st : store) : result (list record) * store :=
  (Ok mock_data,
   write_memory session_id
     (fun mem => set_last_raw_records mock_data (set_last_year year mem)) st).

(** *** [aggregate_costs] *)

(** The grouping key [(r.get("region"), r.get("category"))]. *)
Definition record_key (r : record) : label * label :=
  (get_default (rec_region r) LNone, get_default (rec_category r) LNone).

(** [totals]: the buckets in insertion order, each with its running
    [total_cost] and [hours]. *)
Definition totals_t : Type := list ((label * label) * (float * float)).

(** One pass of the loop body on [totals]: create the bucket at the end
    with zero sums when the key is new, then add to its sums. *)
Fixpoint add_to_totals (key : label * label) (cost hours : float)
    (totals : totals_t) : totals_t :=
  match totals with
  | [] => [(key, (0 + cost, 0 + hours)%float)]
  | (k, (tc, th)) :: rest =>
      if decide (k = key)
      then (k, (tc + cost, th + hours)%float) :: rest
      else (k, (tc, th)) :: add_to_totals key cost hours rest
  end.

(** The loop body: coerce the record's numbers, then update [totals]. *)
Definition aggregate_step (totals : totals_t) (r : record) : result totals_t :=
  do cost <- py_float (get_default (rec_cost r) (VFloat 0)) ;;
  do hours <- py_float (get_default (rec_hours r) (VFloat 0)) ;;
  Ok (add_to_totals (record_key r) cost hours totals).

(** The row dict of a bucket, paired with its sort key [x["total_cost"]]. *)
Definition bucket_row (b : (label * label) * (float * float)) : float * row :=
  let '((reg, cat), (tc, th)) := b in
  (tc, mkRow (Some reg) (Some cat) (Some (VFloat tc)) (Some (VFloat th))).

(** The list [aggregate_costs] builds before it stores and returns it. *)
Definition aggregate_rows (records : list record) : result (list row) :=
  do totals <- foldM aggregate_step records [] ;;
  Ok (map snd (sort_desc (map bucket_row totals))).

Definition aggregate_costs (records : list record) (session_id : string)
    (st : store) : result (list row) * store :=
  match aggregate_rows records with
  | Raise e => (Raise e, st)
  | Ok aggregated_list =>
      (Ok aggregated_list,
       write_memory session_id (set_last_aggregated aggregated_list) st)
  end.

(** *** [compact_aggregated_costs] *)

(** The sort key [float(x.get("total_cost", 0.0))]. *)
Definition row_key (x : row) : result float :=
  py_float (get_default (total_cost x) (VFloat 0)).

(** [sorted(aggregated, key=..., reverse=True)]: the keys are computed for
    every row, in order, before any comparison. *)
Definition sorted_rows (aggregated : list row) : result (list row) :=
  do keyed <- mapM (fun x => do k <- row_key x ;; Ok (k, x)) aggregated ;;
  Ok (map snd (sort_desc keyed)).

Definition compact_rows (aggregated : list row) (max_rows : Z)
  : result (list row) :=
  do sorted <- sorted_rows aggregated ;;
  Ok (slice_to max_rows sorted).

Definition compact_aggregated_costs (aggregated : list row) (max_rows : Z)
    (session_id : string) (st : store) : result (list row) * store :=
  match compact_rows aggregated max_rows with
  | Raise e => (Raise e, st)
  | Ok compacted =>
      (Ok compacted, write_memory session_id (set_last_compacted compacted) st)
  end.

(** *** [build_cost_table] *)

Definition table_header : list string :=
  ["Region | Category | Total Cost ($) | Hours"; "---|---|---|---"].

(** One pass of the table loop: the line appended for [row]. *)
Definition table_line (x : row) : result string :=
  let region := get_default (region x) (LStr "") in
  let category := get_default (category x) (LStr "") in
  do total_cost <- py_float (get_default (total_cost x) (VFloat 0)) ;;
  do hours <- py_float (get_default (hours x) (VFloat 0)) ;;
  Ok (format_label region +:+ " | " +:+ format_label category +:+ " | " +:+
      format_money total_cost +:+ " | " +:+ format_hours hours).

Definition table_lines (aggregated : list row) : result (list string) :=
  mapM table_line aggregated.

(** One step of [max(aggregated, key=lambda x: x["total_cost"])]: the item
    replaces the best so far only when its key is greater. *)
Definition max_step (best : row * value) (x : row) : result (row * value) :=
  do k <- getitem (total_cost x) ;;
  do gt <- py_gt k (snd best) ;;
  Ok (if gt : bool then (x, k) else best).

(** [max(aggregated, key=lambda x: x["total_cost"])]: the first row whose
    key no later key exceeds. *)
Definition max_by_total_cost (aggregated : list row) : result row :=
  match aggregated with
  | [] => Raise ValueError
  | x :: rest =>
      do k <- getitem (total_cost x) ;;
      do best <- foldM max_step rest (x, k) ;;
      Ok (fst best)
  end.

(** [sum(r["total_cost"] for r in aggregated if r["category"] == name)].
    The partial sums are added left to right from the [int] 0.  (CPython
    3.12 and later carry a compensation term while adding floats; the two
    agree whenever the partial sums are exact.) *)
Definition category_total (name : string) (aggregated : list row)
  : result value :=
  foldM (fun acc r =>
           do c <- getitem (category r) ;;
           if decide (c = LStr name)
           then (do tc <- getitem (total_cost r) ;; py_add acc tc)
           else Ok acc)
        aggregated (VInt 0).

(** The narrative block joined by newlines. *)
Definition narrative (aggregated : list row) : result string :=
  do top <- max_by_total_cost aggregated ;;
  do top_region <- getitem (region top) ;;
  do top_category <- getitem (category top) ;;
  do top_cost <- getitem (total_cost top) ;;
  do aircraft_total <- category_total "aircraft" aggregated ;;
  do personnel_total <- category_total "personnel" aggregated ;;
  do equipment_total <- category_total "equipment" aggregated ;;
  do top_cost_s <- format_money_value top_cost ;;
  do aircraft_s <- format_money_value aircraft_total ;;
  do personnel_s <- format_money_value personnel_total ;;
  do equipment_s <- format_money_value equipment_total ;;
  Ok (join nl
    [ "Here's a summary of the wildfire costs based on the synthetic data:"
        +:+ nl;
      "**Key Insights:**";
      "- **Largest Single Bucket:** " +:+ format_label top_region +:+ " – "
        +:+ format_label top_category +:+ " at $" +:+ top_cost_s +:+ ".";
      "- **By Category:** Aircraft ($" +:+ aircraft_s +:+ "), Personnel ($"
        +:+ personnel_s +:+ "), Equipment ($" +:+ equipment_s +:+ ").";
      "- Aircraft is the dominant cost driver across regions, "
        +:+ "with personnel generally higher than equipment." ]).

(** [final_summary] from its two blocks. *)
Definition assemble (lines : list string) (summary : string) : string :=
  join nl (table_header ++ lines) +:+ nl +:+ nl +:+ summary.

(** [final_summary] for a non-empty list of rows. *)
Definition render_report (aggregated : list row) : result string :=
  do lines <- table_lines aggregated ;;
  do summary <- narrative aggregated ;;
  Ok (assemble lines summary).

(** The part of [build_cost_table] after the input has been decoded. *)
Definition render_decoded (d : decoded) : result outcome :=
  match d with
  | Rows [] | Other true => Ok (Fixed "No cost data available.")
  | Other false => Raise AttributeError
  | Rows aggregated => do text <- render_report aggregated ;; Ok (Report text)
  end.

(** Everything [build_cost_table] computes before it touches the store. *)
Definition build_outcome (aggregated : table_input) : result outcome :=
  match aggregated with
  | Structured rows => render_decoded (Rows rows)
  | Serialized text =>
      match json_loads text with
      | None => Ok (Fixed "Could not parse aggregated cost data.")
      | Some d => render_decoded d
      end
  end.

Definition build_cost_table (aggregated : table_input) (session_id : string)
    (st : store) : result string * store :=
  match build_outcome aggregated with
  | Raise e => (Raise e, st)
  | Ok (Fixed text) => (Ok text, st)
  | Ok (Report final_summary) =>
      (Ok final_summary,
       write_memory session_id (set_last_summary final_summary) st)
  end.

(** *** [get_last_summary] *)

Definition no_summary_text : string :=
  "I don't have a previous summary stored yet in this session.".

Definition get_last_summary (session_id : string) (st : store)
  : string * store :=
  let '(mem, st1) := _get_session_memory session_id st in
  match last_summary mem with
  | None | Some EmptyString => (no_summary_text, st1)
  | Some summary => (summary, st1)
  end.

(** *** [google_search], as a writer to the store *)

(** The store after [google_search(query, session_id)].  [result_text] is
    the bulleted block built from the items the lookup returned; it is
    [None] on every path that returns early (missing credentials, a
    transport error, no items), none of which reaches the store. *)
Definition google_search (query session_id : string)
    (result_text : option string) (st : store) : store :=
  match result_text with
  | None => st
  | Some text => write_memory session_id (set_last_search query text) st
  end.

(** ** Calls and traces *)

(** One call of a tool of the agent. *)
Inductive call : Type :=
  | LoadCall (year : Z) (session_id : string)
  | AggregateCall (records : list record) (session_id : string)
  | CompactCall (aggregated : list row) (max_rows : Z) (session_id : string)
  | RenderCall (aggregated : table_input) (session_id : string)
  | LastSummaryCall (session_id : string)
  | SearchCall (query session_id : string) (result_text : option string).

(** The store after one call. *)
Definition run_call (st : store) (c : call) : store :=
  match c with
  | LoadCall year sid => snd (load_mock_wildfire_costs year sid st)
  | AggregateCall records sid => snd (aggregate_costs records sid st)
  | CompactCall aggregated k sid =>
      snd (compact_aggregated_costs aggregated k sid st)
  | RenderCall aggregated sid => snd (build_cost_table aggregated sid st)
  | LastSummaryCall sid => snd (get_last_summary sid st)
  | SearchCall query sid result_text => google_search query sid result_text st
  end.

(** The store after a sequence of calls. *)
Definition run (calls : list call) (st : store) : store :=
  fold_left run_call calls st.

(** The report a call produces for a session: the text of a
    [build_cost_table] call for that session that got as far as a
    report. *)
Definition report_of (session_id : string) (c : call) : option string :=
  match c with
  | RenderCall aggregated sid =>
      if decide (sid = session_id)
      then match build_outcome aggregated with
           | Ok (Report text) => Some text
           | _ => None
           end
      else None
  | _ => None
  end.

(** The report of the most recent call that produced one for the session,
    [acc] when there is none. *)
Definition last_report (session_id : string) (calls : list call)
    (acc : option string) : option string :=
  fold_left (fun acc c =>
               match report_of session_id c with
               | Some text => Some text
               | None => acc
               end) calls acc.

(** ** Vocabulary of the properties *)

(** The float a coercion gives, NaN when it raises. *)
Definition float_or_nan (r : result float) : float :=
  match r with Ok f => f | Raise _ => nan end.

(** The cost and the hours a record contributes. *)
Definition cost_of (r : record) : float :=
  float_or_nan (py_float (get_default (rec_cost r) (VFloat 0))).

Definition hours_of (r : record) : float :=
  float_or_nan (py_float (get_default (rec_hours r) (VFloat 0))).

(** A record whose ["cost"] and ["hours"] coerce to a number (an absent
    entry counts as 0.0). *)
Definition coercible (r : record) : bool :=
  is_ok (py_float (get_default (rec_cost r) (VFloat 0))) &&
  is_ok (py_float (get_default (rec_hours r) (VFloat 0))).

(** The error kind of a numeric field that does not coerce: the exceptions
    [float] raises, which [aggregate_costs] does not catch. *)
Definition InvalidRecordField (e : pyerr) : Prop :=
  e = TypeError \/ e = ValueError \/ e = OverflowError.

(** A sum of floats accumulated left to right from 0.0, as [+=] in a loop
    adds them, and [sum] up to CPython 3.11. *)
Definition fsum (l : list float) : float := fold_left PrimFloat.add l 0%float.

(** The sum of floats as [sum] adds them from CPython 3.12 on: left to
    right with a compensation term, which is added at the end when it is
    finite and not zero. *)
Definition compensated_step (sc : float * float) (x : float) : float * float :=
  let '(s, c) := sc in
  let t := (s + x)%float in
  (t, if PrimFloat.leb (abs x) (abs s)
      then (c + ((s - t) + x))%float
      else (c + ((x - t) + s))%float).

Definition fsum_compensated (l : list float) : float :=
  let '(s, c) := fold_left compensated_step l (0, 0)%float in
  if negb (PrimFloat.eqb c 0) && is_finite c then (s + c)%float else s.

(** The integer a finite float denotes, truncated toward zero when it is
    not an integer, as [int(x)] gives it (0 for infinities and NaN). *)
Definition float_to_Z (x : float) : Z :=
  match Prim2SF x with
  | S754_finite s m e =>
      let n := if 0 <=? e then Z.pos m * 2 ^ e else Z.pos m / 2 ^ (- e) in
      if s then - n else n
  | _ => 0
  end.

(** The exact sum of floats that are integers. *)
Definition exact_sum (l : list float) : Z :=
  fold_left Z.add (map float_to_Z l) 0.

(** The records of a bucket, in input order. *)
Definition bucket_records (key : label * label) (records : list record)
  : list record :=
  filter (fun r => record_key r = key) records.

(** The (region, category) pair of a row. *)
Definition row_pair (x : row) : label * label :=
  (get_default (region x) LNone, get_default (category x) LNone).

(** The float in a row's ["total_cost"] entry, NaN when there is none. *)
Definition total_cost_float (x : row) : float :=
  match total_cost x with Some (VFloat f) => f | _ => nan end.

(** The sort key of a row as a float, NaN when the coercion raises. *)
Definition key_of (x : row) : float := float_or_nan (row_key x).

(** An aggregated row the compactor can order: its ["total_cost"] coerces
    to a number that is not NaN. *)
Definition sortable (x : row) : bool :=
  match row_key x with
  | Ok f => negb (is_nan f)
  | Raise _ => false
  end.

(** [a >= b] on floats. *)
Definition key_ge (a b : float) : Prop := PrimFloat.leb b a = true.


(** A row that has the three keys the narrative reads by indexing. *)
Definition has_keys (x : row) : bool :=
  bool_decide (is_Some (region x)) && bool_decide (is_Some (category x)) &&
  bool_decide (is_Some (total_cost x)).

(** A row whose numeric entries, where present, hold floats. *)
Definition numeric_row (x : row) : bool :=
  match total_cost x, hours x with
  | (None | Some (VFloat _)), (None | Some (VFloat _)) => true
  | _, _ => false
  end.

(** An input of [build_cost_table] that is empty once decoded. *)
Definition empty_input (aggregated : table_input) : bool :=
  match aggregated with
  | Structured [] => true
  | Structured (_ :: _) => false
  | Serialized text =>
      match json_loads text with
      | Some (Rows []) | Some (Other true) => true
      | _ => false
      end
  end.

(** The fields of a session's memory. *)
Inductive field : Type :=
  | LastYear
  | LastRawRecords
  | LastAggregated
  | LastCompacted
  | LastSummary
  | LastSearchQuery
  | LastSearchResults.

(** [m'] has the values of [m] in every field except, possibly, [f]. *)
Definition same_except (f : field) (m m' : SessionMemory) : Prop :=
  (f <> LastYear -> last_year m' = last_year m) /\
  (f <> LastRawRecords -> last_raw_records m' = last_raw_records m) /\
  (f <> LastAggregated -> last_aggregated m' = last_aggregated m) /\
  (f <> LastCompacted -> last_compacted m' = last_compacted m) /\
  (f <> LastSummary -> last_summary m' = last_summary m) /\
  (f <> LastSearchQuery -> last_search_query m' = last_search_query m) /\
  (f <> LastSearchResults -> last_search_results m' = last_search_results m).

(** The memory of a session once it has been accessed: the stored one, or
    the freshly created one with every field [None]. *)
Definition memory_of (session_id : string) (st : store) : SessionMemory :=
  default new_memory (st !! session_id).

(** From [st] to [st'] nothing changed but, possibly, field [f] of the
    memory of [session_id], which may have been created on the way. *)
Definition writes_only (f : field) (session_id : string) (st st' : store)
  : Prop :=
  (forall sid, sid <> session_id -> st' !! sid = st !! sid) /\
  (st' !! session_id = st !! session_id \/
   exists m', st' !! session_id = Some m' /\
              same_except f (memory_of session_id st) m').

(** The report text stored for a session, if any. *)
Definition stored_summary (session_id : string) (st : store) : option string :=
  st !! session_id ≫= last_summary.

(** A row next to its sort key. *)
Definition keyed (x : row) : float * row := (key_of x, x).

(** The rows in descending key order. *)
Definition sort_rows (aggregated : list row) : list row :=
  map snd (sort_desc (map keyed aggregated)).

(** The loop body of [aggregate_costs] on a record whose numbers coerce. *)
Definition add_record (totals : totals_t) (r : record) : totals_t :=
  add_to_totals (record_key r) (cost_of r) (hours_of r) totals.

(** What a bucket of [totals] holds after the loop has seen [records]. *)
Definition bucket_sums (records : list record)
    (b : (label * label) * (float * float)) : Prop :=
  snd b = (fsum (map cost_of (bucket_records (fst b) records)),
           fsum (map hours_of (bucket_records (fst b) records))).

(** The loop invariant: one bucket per key seen so far, each holding the
    sums of its records in input order. *)
Definition totals_inv (records : list record) (totals : totals_t) : Prop :=
  NoDup (map fst totals) /\
  (forall key, key ∈ map fst totals <-> key ∈ map record_key records) /\
  Forall (bucket_sums records) totals.

(** What a row of the result says of the records of its bucket: it names
    the pair, and its sums are those of the records of the pair, added in
    input order. *)
Definition row_sums (records : list record) (x : row) : Prop :=
  region x = Some (fst (row_pair x)) /\
  category x = Some (snd (row_pair x)) /\
  total_cost x
  = Some (VFloat (fsum (map cost_of (bucket_records (row_pair x) records)))) /\
  hours x
  = Some (VFloat (fsum (map hours_of (bucket_records (row_pair x) records)))).

(** A row with the three keys and float entries. *)
Definition complete_row (x : row) : Prop :=
  has_keys x = true /\ numeric_row x = true.

(** The values a category subtotal takes on rows with float entries. *)
Definition subtotal_value (v : value) : Prop :=
  v = VInt 0 \/ exists f, v = VFloat f.

(** The keys of the buckets in the order in which the loop of
    [aggregate_costs] first meets them. *)
Definition first_seen (records : list record) : list (label * label) :=
  fold_left (fun seen r =>
               if decide (record_key r ∈ seen) then seen
               else seen ++ [record_key r]) records [].

(** A record with its absent entries filled in the way the loop of
    [aggregate_costs] reads them. *)
Definition with_defaults (r : record) : record :=
  mkRecord (Some (get_default (rec_region r) LNone))
    (Some (get_default (rec_category r) LNone))
    (Some (get_default (rec_cost r) (VFloat 0)))
    (Some (get_default (rec_hours r) (VFloat 0))).

(** The session a call is for. *)
Definition call_session (c : call) : string :=
  match c with
  | LoadCall _ sid | AggregateCall _ sid | CompactCall _ _ sid
  | RenderCall _ sid | LastSummaryCall sid | SearchCall _ sid _ => sid
  end.







Definition stored_search (m : SessionMemory) : option (string * string) :=
  match last_search_query m, last_search_results m with
  | Some q, Some t => Some (q, t)
  | _, _ => None
  end.

(** A row of the aggregator next to its own [total_cost]: the compactor
    computes the same key for it, and it has every key, with floats. *)
Definition own_key (p : float * row) : Prop :=
  fst p = total_cost_float (snd p) /\ row_key (snd p) = Ok (fst p) /\
  complete_row (snd p).

(** The two texts [build_cost_table] returns instead of a report. *)
Definition fixed_texts : list string :=
  ["No cost data available."; "Could not parse aggregated cost data."].

(** A row whose ["total_cost"] is a float other than NaN. *)
Definition float_total (x : row) : bool :=
  match total_cost x with
  | Some (VFloat f) => negb (is_nan f)
  | _ => false
  end.

(** A row of the category [name]. *)
Definition in_category (name : string) (x : row) : Prop :=
  category x = Some (LStr name).

#[global] Instance in_category_dec name x : Decision (in_category name x).
Proof. unfold in_category. apply _. Defined.

(** The row that has the entries of a record. *)
Definition as_row (r : record) : row :=
  mkRow (rec_region r) (rec_category r) (rec_cost r) (rec_hours r).

(** A float that is finite and not negative. *)
Definition nonneg_finite (x : float) : bool :=
  match Prim2SF x with
  | S754_zero _ | S754_finite false _ _ => true
  | _ => false
  end.

(** A float that is not negative: a finite one or [inf]. *)
Definition nonneg (x : float) : Prop := nonneg_finite x = true \/ x = infinity.

(** The magnitude of a finite float in units of [2^-1074], of which every
    finite binary64 number is an integer multiple (0 for infinities and
    NaN). *)
Definition SFunits (x : spec_float) : Z :=
  match x with
  | S754_finite _ m e => Z.pos m * 2 ^ (e + 1074)
  | _ => 0
  end.

Definition units (x : float) : Z := SFunits (Prim2SF x).

(** The exact sum of [f] over a list. *)
Definition zsum {A : Type} (f : A -> Z) (l : list A) : Z :=
  fold_right (fun x s => f x + s) 0 l.

(** [x] is [e] up to [n] roundings to nearest, each of a relative error
    of [2^-53] at most: [(1 - 2^-53)^n e <= x <= (1 + 2^-53)^n e]. *)
Definition within (n : nat) (x e : Z) : Prop :=
  (2 ^ 53 - 1) ^ Z.of_nat n * e <= x * (2 ^ 53) ^ Z.of_nat n /\
  x * (2 ^ 53) ^ Z.of_nat n <= (2 ^ 53 + 1) ^ Z.of_nat n * e.

(** What [k] right shifts have made of the integer [M]: the quotient, the
    bit shifted out last and whether a lower bit was set. *)
Definition shifted (M : Z) (k : Z) (mrs : shr_record) : Prop :=
  0 <= shr_m mrs /\
  exists t, 0 <= t < 2 ^ k /\
    2 * M = shr_m mrs * 2 ^ (k + 1) + (if shr_r mrs then 2 ^ k else 0) + t /\
    (shr_s mrs = true <-> 0 < t).







(** ** The order of floats *)

(** The comparison of two specification floats is defined unless one of
    them is NaN. *)
Lemma SFcompare_is_Some x y :
  x <> S754_nan -> y <> S754_nan -> is_Some (SFcompare x y).
Proof. destruct x, y; simpl; intros; try congruence; eauto. Qed.

Lemma SFcompare_refl x : x <> S754_nan -> SFcompare x x = Some Eq.
Proof.
  destruct x as [[]|[]| |[] m e]; simpl; try congruence; intros _.
  all: change (Pos.compare_cont Eq m m) with (m ?= m)%positive.
  all: by rewrite Z.compare_refl, Pos.compare_refl.
Qed.

Lemma SFcompare_opp x y : SFcompare y x = CompOpp <$> SFcompare x y.
Proof.
  destruct x as [[]|[]| |[] m1 e1], y as [[]|[]| |[] m2 e2];
    simpl; try reflexivity.
  all: rewrite (Z.compare_antisym e1 e2);
    change (Pos.compare_cont Eq m2 m1) with (m2 ?= m1)%positive;
    change (Pos.compare_cont Eq m1 m2) with (m1 ?= m2)%positive;
    rewrite (Pos.compare_antisym m1 m2);
    destruct (e1 ?= e2); simpl; try reflexivity;
    destruct (m1 ?= m2)%positive; reflexivity.
Qed.

(** Strictly below, then not above: strictly below. *)
Lemma SFcompare_lt_le x y z :
  SFcompare x y = Some Lt -> SFcompare y z <> Some Gt ->
  y <> S754_nan -> z <> S754_nan -> SFcompare x z = Some Lt.
Proof.
  destruct x as [[]|[]| |[] m1 e1], y as [[]|[]| |[] m2 e2],
    z as [[]|[]| |[] m3 e3]; simpl; try congruence; intros H1 H2 _ _.
  all: change (Pos.compare_cont Eq m2 m3) with (m2 ?= m3)%positive in *;
       change (Pos.compare_cont Eq m1 m2) with (m1 ?= m2)%positive in *;
       change (Pos.compare_cont Eq m1 m3) with (m1 ?= m3)%positive in *.
  all: destruct (Z.compare_spec e1 e2), (Z.compare_spec e2 e3),
         (Z.compare_spec e1 e3); try lia; try congruence; subst.
  all: destruct (Pos.compare_spec m1 m2), (Pos.compare_spec m2 m3),
         (Pos.compare_spec m1 m3); simpl in *; try lia; try congruence.
Qed.

Lemma is_nan_false f : is_nan f = false <-> Prim2SF f <> S754_nan.
Proof.
  unfold is_nan. rewrite FloatAxioms.eqb_spec. unfold SFeqb. split.
  - intros H E. rewrite E in H. discriminate.
  - intros H. by rewrite SFcompare_refl.
Qed.

(** [<] on floats is asymmetric. *)
Lemma ltb_asym a b : PrimFloat.ltb a b = true -> PrimFloat.ltb b a = false.
Proof.
  rewrite !FloatAxioms.ltb_spec. unfold SFltb. rewrite (SFcompare_opp (Prim2SF a)).
  by destruct (SFcompare (Prim2SF a) (Prim2SF b)) as [[]|].
Qed.

(** On floats other than NaN, "not less than" is transitive. *)
Lemma ltb_false_trans a b c :
  is_nan a = false -> is_nan b = false -> is_nan c = false ->
  PrimFloat.ltb a b = false -> PrimFloat.ltb b c = false ->
  PrimFloat.ltb a c = false.
Proof.
  rewrite !is_nan_false, !FloatAxioms.ltb_spec. unfold SFltb. intros Ha Hb Hc Hab Hbc.
  destruct (SFcompare (Prim2SF a) (Prim2SF c)) as [[]|] eqn:Hac; try done.
  rewrite (SFcompare_lt_le _ _ _ Hac) in Hab; try done.
  rewrite SFcompare_opp.
  destruct (SFcompare_is_Some _ _ Hb Hc) as [o Ho]. rewrite Ho in Hbc |- *.
  by destruct o.
Qed.

(** On floats other than NaN, [b <= a] says that [a < b] fails. *)
Lemma leb_ltb a b :
  is_nan a = false -> is_nan b = false ->
  PrimFloat.leb b a = negb (PrimFloat.ltb a b).
Proof.
  rewrite !is_nan_false, FloatAxioms.leb_spec, FloatAxioms.ltb_spec. unfold SFleb, SFltb.
  intros Ha Hb. rewrite (SFcompare_opp (Prim2SF a)).
  destruct (SFcompare_is_Some _ _ Ha Hb) as [o Ho]. rewrite Ho.
  by destruct o.
Qed.

(** Two floats equal to a third are not in strict order. *)
Lemma eqb_ltb a b v :
  PrimFloat.eqb a v = true -> PrimFloat.eqb b v = true ->
  PrimFloat.ltb a b = false.
Proof.
  rewrite !FloatAxioms.eqb_spec, FloatAxioms.ltb_spec. unfold SFeqb, SFltb. intros Ha Hb.
  destruct (SFcompare (Prim2SF a) (Prim2SF b)) as [[]|] eqn:Hab; try done.
  assert (Hv : Prim2SF v <> S754_nan).
  { intros E. rewrite E in Hb. by destruct (Prim2SF b). }
  assert (Hnb : Prim2SF b <> S754_nan) by (intros E; by rewrite E in Hb).
  rewrite (SFcompare_lt_le _ _ _ Hab) in Ha; try done.
  by destruct (SFcompare (Prim2SF b) (Prim2SF v)) as [[]|].
Qed.

(** ** Rounding in float addition

    [x + y] on floats is the exact sum rounded to nearest, ties to even.
    The bound on its error is read off the specification of the addition
    of primitive floats, for operands that are not negative. *)

Lemma digits2_bounds (p : positive) :
  2 ^ (Z.pos (digits2_pos p) - 1) <= Z.pos p < 2 ^ Z.pos (digits2_pos p).
Proof.
  induction p as [p IH|p IH|]; simpl digits2_pos;
    rewrite ?Pos2Z.inj_succ; [| |simpl; lia].
  - replace (Z.succ (Z.pos (digits2_pos p)) - 1)
      with (Z.succ (Z.pos (digits2_pos p) - 1)) by lia.
    rewrite !Z.pow_succ_r by lia. lia.
  - replace (Z.succ (Z.pos (digits2_pos p)) - 1)
      with (Z.succ (Z.pos (digits2_pos p) - 1)) by lia.
    rewrite !Z.pow_succ_r by lia. lia.
Qed.

(** The number of binary digits is determined by the bounds. *)
Lemma digits2_unique (p : positive) (d : Z) :
  2 ^ (d - 1) <= Z.pos p < 2 ^ d -> Z.pos (digits2_pos p) = d.
Proof.
  intros [H1 H2]. pose proof (digits2_bounds p) as [H3 H4].
  destruct (Z.lt_trichotomy (Z.pos (digits2_pos p)) d) as [Hlt|[->|Hgt]]; [|done|].
  - exfalso. assert (2 ^ Z.pos (digits2_pos p) <= 2 ^ (d - 1))
      by (apply Z.pow_le_mono_r; lia). lia.
  - exfalso. assert (0 <= d \/ d < 0) as [Hd|Hd] by lia.
    + assert (2 ^ d <= 2 ^ (Z.pos (digits2_pos p) - 1))
        by (apply Z.pow_le_mono_r; lia). lia.
    + rewrite (Z.pow_neg_r 2 d) in H2 by lia. lia.
Qed.

Lemma iter_pos_inv {A : Type} (f : A -> A) (P : Z -> A -> Prop) :
  (forall k x, 0 <= k -> P k x -> P (k + 1) (f x)) ->
  forall n k x, 0 <= k -> P k x -> P (k + Z.pos n) (SpecFloat.iter_pos f n x).
Proof.
  intros Hstep. induction n as [n IH|n IH|]; intros k x Hk HP; simpl.
  - replace (k + Z.pos n~1) with (k + 1 + Z.pos n + Z.pos n) by lia.
    apply IH; [lia|]. apply IH; [lia|]. by apply Hstep.
  - replace (k + Z.pos n~0) with (k + Z.pos n + Z.pos n) by lia.
    apply IH; [lia|]. by apply IH.
  - by apply Hstep.
Qed.

Lemma shr_1_shifted M k mrs :
  0 <= k -> shifted M k mrs -> shifted M (k + 1) (shr_1 mrs).
Proof.
  intros Hk (Hq & t & Ht & HM & Hs). destruct mrs as [q r s].
  unfold shifted. simpl in *.
  assert (H2 : 2 ^ (k + 1) = 2 * 2 ^ k) by (rewrite Z.pow_add_r; lia).
  assert (H3 : 2 ^ (k + 1 + 1) = 4 * 2 ^ k) by (rewrite !Z.pow_add_r; lia).
  assert (Hp : 0 < 2 ^ k) by (apply Z.pow_pos_nonneg; lia).
  assert (Hiff : (r || s = true) <-> 0 < (if r then 2 ^ k else 0) + t).
  { destruct r, s; simpl; intuition (try lia; try congruence). }
  rewrite H2 in HM. rewrite H2, H3.
  destruct q as [|[q|q|]|q]; simpl; try lia;
    (split; [lia|]); exists ((if r then 2 ^ k else 0) + t);
    (split; [destruct r; lia|]); (split; [destruct r; lia|]); exact Hiff.
Qed.

Lemma fexp_eq x : fexp prec emax x = Z.max (x - 53) (-1074).
Proof. reflexivity. Qed.

Lemma shr_fexp_small (m : positive) e l :
  -1074 <= e -> Z.pos (digits2_pos m) <= 53 ->
  shr_fexp prec emax (Z.pos m) e l = (shr_record_of_loc (Z.pos m) l, e).
Proof.
  intros He Hd. unfold shr_fexp. rewrite fexp_eq. simpl Zdigits2.
  unfold shr. destruct (Z.max _ _ - e) eqn:E; try done. lia.
Qed.

Lemma shr_fexp_large (m : positive) e :
  -1074 <= e -> 53 < Z.pos (digits2_pos m) ->
  exists mrs,
    shr_fexp prec emax (Z.pos m) e loc_Exact
    = (mrs, e + (Z.pos (digits2_pos m) - 53)) /\
    shifted (Z.pos m) (Z.pos (digits2_pos m) - 53) mrs.
Proof.
  intros He Hd. unfold shr_fexp. rewrite fexp_eq. simpl Zdigits2.
  replace (Z.max (Z.pos (digits2_pos m) + e - 53) (-1074) - e)
    with (Z.pos (digits2_pos m) - 53) by lia.
  unfold shr. destruct (Z.pos (digits2_pos m) - 53) as [|p|p] eqn:E; try lia.
  eexists. split; [done|].
  change (Z.pos p) with (0 + Z.pos p).
  apply (iter_pos_inv shr_1 (shifted (Z.pos m))); [|lia|].
  - intros k x Hk. by apply shr_1_shifted.
  - split; simpl; [lia|]. exists 0. simpl. repeat split; try lia; done.
Qed.

(** Rounding to nearest of a shifted integer is off by half a unit at most. *)
Lemma round_nearest_even_shifted M k mrs :
  0 <= k -> shifted M k mrs ->
  let m1 := round_nearest_even (shr_m mrs) (loc_of_shr_record mrs) in
  shr_m mrs <= m1 <= shr_m mrs + 1 /\
  Z.abs (2 * (m1 * 2 ^ k) - 2 * M) <= 2 ^ k.
Proof.
  intros Hk (Hq & t & Ht & HM & Hs). destruct mrs as [q r s]. simpl in *.
  assert (H2 : 2 ^ (k + 1) = 2 * 2 ^ k) by (rewrite Z.pow_add_r; lia).
  rewrite H2 in HM.
  assert (Hp : 0 < 2 ^ k) by (apply Z.pow_pos_nonneg; lia).
  destruct r, s; simpl; try destruct (Z.even q); split; try lia.
  all: try (assert (0 < t) by (by apply Hs)).
  all: nia.
Qed.

Lemma shr_fexp_rounded (m1 e1 : Z) :
  -1074 <= e1 -> 2 ^ 52 <= m1 <= 2 ^ 53 ->
  exists mrs e2 p,
    shr_fexp prec emax m1 e1 loc_Exact = (mrs, e2) /\
    shr_m mrs = Z.pos p /\
    Z.pos (digits2_pos p) = 53 /\ e1 <= e2 <= e1 + 1 /\
    Z.pos p * 2 ^ (e2 + 1074) = m1 * 2 ^ (e1 + 1074).
Proof.
  intros He [Hlo Hhi]. destruct m1 as [|p1|p1]; try lia.
  destruct (Z.eq_dec (Z.pos p1) (2 ^ 53)) as [E|Hne].
  - assert (p1 = 9007199254740992%positive) as -> by lia.
    unfold shr_fexp. rewrite fexp_eq.
    change (Zdigits2 9007199254740992) with 54.
    replace (Z.max (54 + e1 - 53) (-1074) - e1) with 1 by lia.
    eexists _, _, _. split; [reflexivity|]. split; [reflexivity|].
    split; [reflexivity|]. split; [lia|].
    replace (e1 + 1 + 1074) with (Z.succ (e1 + 1074)) by lia.
    rewrite Z.pow_succ_r by lia. lia.
  - assert (Hd : Z.pos (digits2_pos p1) = 53).
    { apply digits2_unique. simpl (53 - 1). lia. }
    rewrite shr_fexp_small by lia.
    eexists _, _, _. split; [reflexivity|]. repeat split; try done; lia.
Qed.

(** Rounding a positive integer times a power of two: the result is
    infinite only for a large operand, and otherwise within half a unit in
    the last place. *)
Lemma binary_round_aux_error (s : bool) (m : positive) (e : Z) :
  -1074 <= e ->
  let z := binary_round_aux prec emax s (Z.pos m) e loc_Exact in
  (z = S754_infinity s /\
   1023 < e + Z.max (Z.pos (digits2_pos m)) 53) \/
  exists m' e',
    z = S754_finite s m' e' /\ -1074 <= e' <= 971 /\
    (Z.pos (digits2_pos m') = 53 \/
     (Z.pos (digits2_pos m) <= 53 /\ m' = m /\ e' = e)) /\
    Z.abs (SFunits z - Z.pos m * 2 ^ (e + 1074)) * 2 ^ 53
    <= Z.pos m * 2 ^ (e + 1074).
Proof.
  intros He z. subst z. unfold binary_round_aux.
  assert (HB : 0 < 2 ^ (e + 1074)) by (apply Z.pow_pos_nonneg; lia).
  destruct (Z_le_gt_dec (Z.pos (digits2_pos m)) 53) as [Hd|Hd].
  - rewrite shr_fexp_small by done. simpl.
    rewrite shr_fexp_small by done. simpl.
    change (emax - prec) with 971.
    destruct (Z.leb_spec e 971); [right|left; split; [done|lia]].
    exists m, e. split; [done|]. split; [lia|]. split; [by right|]. simpl.
    rewrite Z.sub_diag. simpl. lia.
  - destruct (shr_fexp_large m e) as (mrs & -> & Hsh); [done|lia|].
    set (n := Z.pos (digits2_pos m) - 53) in *.
    assert (Hn : 0 < n) by lia.
    assert (Hn0 : 0 <= n) by lia.
    destruct (round_nearest_even_shifted _ _ _ Hn0 Hsh) as [Hm1 Herr].
    set (m1 := round_nearest_even (shr_m mrs) (loc_of_shr_record mrs)) in *.
    pose proof (digits2_bounds m) as [Hlo Hhi].
    replace (Z.pos (digits2_pos m) - 1) with (n + 52) in Hlo by lia.
    replace (Z.pos (digits2_pos m)) with (n + 53) in Hhi by lia.
    rewrite Z.pow_add_r in Hlo, Hhi by lia.
    assert (HN : 0 < 2 ^ n) by (apply Z.pow_pos_nonneg; lia).
    destruct Hsh as (Hq & t & Ht & HM & Hs).
    assert (H2 : 2 ^ (n + 1) = 2 * 2 ^ n) by (rewrite Z.pow_add_r; lia).
    rewrite H2 in HM.
    assert (Hq1 : 2 ^ 52 <= shr_m mrs < 2 ^ 53).
    { destruct (shr_r mrs); nia. }
    destruct (shr_fexp_rounded m1 (e + n))
      as (mrs2 & e2 & p & -> & -> & Hdp & He2 & Hval); [lia|lia|].
    change (emax - prec) with 971.
    destruct (Z.leb_spec e2 971); [right|left; split; [done|lia]].
    exists p, e2. split; [done|]. split; [lia|]. split; [by left|]. simpl.
    rewrite Hval.
    replace (e + n + 1074) with (n + (e + 1074)) by lia.
    rewrite Z.pow_add_r by lia.
    replace (m1 * (2 ^ n * 2 ^ (e + 1074)) - Z.pos m * 2 ^ (e + 1074))
      with ((m1 * 2 ^ n - Z.pos m) * 2 ^ (e + 1074)) by ring.
    rewrite Z.abs_mul, (Z.abs_eq (2 ^ (e + 1074))) by lia.
    assert (Z.abs (m1 * 2 ^ n - Z.pos m) * 2 ^ 53 <= Z.pos m); [|nia].
    assert (2 * Z.abs (m1 * 2 ^ n - Z.pos m) <= 2 ^ n) by lia.
    change (2 ^ 53) with (2 * 2 ^ 52). nia.
Qed.

Lemma iter_xO_spec (m d : positive) :
  Z.pos (Pos.iter xO m d) = Z.pos m * 2 ^ Z.pos d /\
  Z.pos (digits2_pos (Pos.iter xO m d)) = Z.pos (digits2_pos m) + Z.pos d.
Proof.
  induction d as [|d IH] using Pos.peano_ind.
  - simpl. lia.
  - rewrite Pos.iter_succ. destruct IH as [IH1 IH2]. simpl digits2_pos.
    rewrite Pos2Z.inj_xO, !Pos2Z.inj_succ, IH1, IH2.
    rewrite Z.pow_succ_r by lia. lia.
Qed.

(** [binary_round] of a positive mantissa. *)
Lemma binary_round_error (s : bool) (m : positive) (e : Z) :
  -1074 <= e ->
  let z := binary_round prec emax s m e in
  (z = S754_infinity s /\ 1023 < e + Z.pos (digits2_pos m)) \/
  exists m' e',
    z = S754_finite s m' e' /\ valid_binary z = true /\
    Z.abs (SFunits z - Z.pos m * 2 ^ (e + 1074)) * 2 ^ 53
    <= Z.pos m * 2 ^ (e + 1074).
Proof.
  intros He z. subst z. unfold binary_round, shl_align. rewrite fexp_eq.
  set (d := Z.pos (digits2_pos m)).
  destruct (Z.max (d + e - 53) (-1074) - e) as [|k|k] eqn:Ek.
  - assert (Hd : d <= 53) by lia.
    destruct (binary_round_aux_error s m e He)
      as [[-> Hinf]|(m' & e' & -> & He' & Hcan & Herr)].
    + left. split; [done|]. fold d in Hinf. lia.
    + right. exists m', e'. split; [done|]. split; [|done].
      simpl. unfold bounded, canonical_mantissa. rewrite fexp_eq.
      change (emax - prec) with 971.
      apply andb_true_iff. split; [apply Z.eqb_eq|apply Z.leb_le; lia].
      destruct Hcan as [->|(Hle & -> & ->)]; [lia|]. fold d in Hle |- *. lia.
  - assert (Hd : 53 < d) by lia.
    destruct (binary_round_aux_error s m e He)
      as [[-> Hinf]|(m' & e' & -> & He' & Hcan & Herr)].
    + left. split; [done|]. fold d in Hinf. lia.
    + right. exists m', e'. split; [done|]. split; [|done].
      simpl. unfold bounded, canonical_mantissa. rewrite fexp_eq.
      change (emax - prec) with 971.
      apply andb_true_iff. split; [apply Z.eqb_eq|apply Z.leb_le; lia].
      destruct Hcan as [->|(Hle & -> & ->)]; [lia|]. fold d in Hle |- *. lia.
  - destruct (iter_xO_spec m k) as [Hv Hdig]. fold d in Hdig.
    set (mz := Pos.iter xO m k) in *.
    set (f := Z.max (d + e - 53) (-1074)) in *.
    assert (Hf : -1074 <= f) by lia.
    assert (Hk : Z.pos k = e - f) by lia.
    assert (Hval : Z.pos mz * 2 ^ (f + 1074) = Z.pos m * 2 ^ (e + 1074)).
    { rewrite Hv, Hk. rewrite <- Z.mul_assoc, <- Z.pow_add_r by lia.
      do 2 f_equal. lia. }
    destruct (binary_round_aux_error s mz f Hf)
      as [[-> Hinf]|(m' & e' & -> & He' & Hcan & Herr)].
    + left. split; [done|]. lia.
    + right. exists m', e'. split; [done|]. split; [|by rewrite <- Hval].
      simpl. unfold bounded, canonical_mantissa. rewrite fexp_eq.
      change (emax - prec) with 971.
      apply andb_true_iff. split; [apply Z.eqb_eq|apply Z.leb_le; lia].
      destruct Hcan as [->|(Hle & -> & ->)]; [lia|]. rewrite Hdig. lia.
Qed.

Lemma valid_exponent s m e :
  valid_binary (S754_finite s m e) = true -> -1074 <= e <= 971.
Proof.
  simpl. unfold bounded, canonical_mantissa. rewrite fexp_eq.
  change (emax - prec) with 971.
  intros [H1%Z.eqb_eq H2%Z.leb_le]%andb_true_iff. lia.
Qed.

Lemma shl_align_units m e e' :
  -1074 <= e' <= e ->
  Z.pos (fst (shl_align m e e')) * 2 ^ (e' + 1074) = Z.pos m * 2 ^ (e + 1074).
Proof.
  intros He. unfold shl_align. destruct (e' - e) as [|k|k] eqn:E; simpl.
  - by replace e' with e by lia.
  - lia.
  - destruct (iter_xO_spec m k) as [-> _].
    rewrite <- Z.mul_assoc, <- Z.pow_add_r by lia. do 2 f_equal. lia.
Qed.

Lemma units_nonneg x : 0 <= units x.
Proof. unfold units, SFunits. destruct (Prim2SF x) as [| | |s m e]; lia. Qed.

(** The sum of two finite non-negative floats overflows or is within
    half a unit in the last place of the exact sum. *)
Lemma add_nonneg_finite (x y : float) :
  nonneg_finite x = true -> nonneg_finite y = true ->
  (x + y)%float = infinity \/
  (nonneg_finite (x + y) = true /\
   Z.abs (units (x + y) - (units x + units y)) * 2 ^ 53 <= units x + units y).
Proof.
  unfold nonneg_finite, units. intros Hx Hy.
  pose proof (Prim2SF_valid x) as Vx. pose proof (Prim2SF_valid y) as Vy.
  pose proof (add_spec x y) as Hadd. unfold SF64add in Hadd.
  destruct (Prim2SF x) as [sx| | |[] mx ex] eqn:Ex; try done;
    destruct (Prim2SF y) as [sy| | |[] my ey] eqn:Ey; try done; simpl in Hadd.
  - right. destruct sx, sy; rewrite Hadd; simpl; split; try done; lia.
  - right. rewrite Hadd. simpl. split; [done|].
    rewrite Z.sub_diag. simpl. pose proof (units_nonneg y) as H.
    unfold units in H. rewrite Ey in H. simpl in H. lia.
  - right. rewrite Hadd. simpl. split; [done|].
    rewrite Z.add_0_r, Z.sub_diag. simpl. pose proof (units_nonneg x) as H.
    unfold units in H. rewrite Ex in H. simpl in H. lia.
  - apply valid_exponent in Vx, Vy.
    set (ez := Z.min ex ey) in *.
    pose proof (shl_align_units mx ex ez ltac:(lia)) as Hvx.
    pose proof (shl_align_units my ey ez ltac:(lia)) as Hvy.
    set (ax := fst (shl_align mx ex ez)) in *.
    set (ay := fst (shl_align my ey ez)) in *.
    change (Z.pos ax + Z.pos ay) with (Z.pos (ax + ay)) in Hadd.
    simpl binary_normalize in Hadd.
    destruct (binary_round_error false (ax + ay) ez ltac:(lia))
      as [[Hinf _]|(m' & e' & Hz & _ & Herr)].
    + left. apply Prim2SF_inj. by rewrite Hadd, Hinf.
    + right. rewrite Hadd, Hz. split; [done|].
      rewrite Hz in Herr. simpl SFunits.
      rewrite <- Hvx, <- Hvy.
      replace (Z.pos ax * 2 ^ (ez + 1074) + Z.pos ay * 2 ^ (ez + 1074))
        with (Z.pos (ax + ay) * 2 ^ (ez + 1074)) by lia.
      exact Herr.
Qed.

Lemma add_infinity_l y : nonneg y -> (infinity + y)%float = infinity.
Proof.
  intros [Hy| ->]; [|reflexivity]. apply Prim2SF_inj.
  rewrite add_spec. unfold nonneg_finite in Hy.
  change (Prim2SF infinity) with (S754_infinity false).
  by destruct (Prim2SF y) as [| | |[]].
Qed.

Lemma add_infinity_r x : nonneg x -> (x + infinity)%float = infinity.
Proof.
  intros [Hx| ->]; [|reflexivity]. apply Prim2SF_inj.
  rewrite add_spec. unfold nonneg_finite in Hx.
  change (Prim2SF infinity) with (S754_infinity false).
  by destruct (Prim2SF x) as [| | |[]].
Qed.

Lemma add_nonneg x y : nonneg x -> nonneg y -> nonneg (x + y).
Proof.
  intros [Hx| ->] Hy; [|right; by apply add_infinity_l].
  destruct Hy as [Hy| ->]; [|right; apply add_infinity_r; by left].
  destruct (add_nonneg_finite x y Hx Hy) as [->|[H _]]; [by right|by left].
Qed.

Lemma fold_add_infinity l :
  Forall nonneg l -> fold_left PrimFloat.add l infinity = infinity.
Proof.
  induction 1 as [|x l Hx _ IH]; simpl; [done|]. by rewrite add_infinity_l.
Qed.

(** A finite sum of non-negative floats has finite terms. *)
Lemma fold_add_finite l acc :
  nonneg acc -> Forall nonneg l ->
  nonneg_finite (fold_left PrimFloat.add l acc) = true ->
  nonneg_finite acc = true /\ Forall (fun x => nonneg_finite x = true) l.
Proof.
  intros Hacc Hl. revert acc Hacc.
  induction Hl as [|x l Hx Hl IH]; intros acc Hacc; simpl; [done|].
  intros Hfin. destruct (IH _ (add_nonneg _ _ Hacc Hx) Hfin) as [Hs Hall].
  assert (Hinf : nonneg_finite infinity = false) by reflexivity.
  destruct Hacc as [Hacc| ->].
  - split; [done|]. constructor; [|done].
    destruct Hx as [Hx| ->]; [done|].
    rewrite add_infinity_r in Hs by (by left). congruence.
  - rewrite add_infinity_l in Hs by done. congruence.
Qed.

Lemma zsum_nonneg {A : Type} (f : A -> Z) l :
  (forall x, 0 <= f x) -> 0 <= zsum f l.
Proof. intros Hf. induction l as [|x l IH]; simpl; [lia|]. specialize (Hf x). lia. Qed.

Lemma within_step n U u' ua ux rest :
  0 <= rest -> 0 <= ua + ux ->
  Z.abs (u' - (ua + ux)) * 2 ^ 53 <= ua + ux ->
  within n U (u' + rest) -> within (S n) U (ua + ux + rest).
Proof.
  unfold within. rewrite Nat2Z.inj_succ, !Z.pow_succ_r by lia.
  set (a := 2 ^ 53 - 1). set (b := 2 ^ 53 + 1). set (c := 2 ^ 53).
  assert (Ha : 0 <= a ^ Z.of_nat n) by (apply Z.pow_nonneg; by compute).
  assert (Hb : 0 <= b ^ Z.of_nat n) by (apply Z.pow_nonneg; by compute).
  assert (Hc : 0 <= c ^ Z.of_nat n) by (apply Z.pow_nonneg; by compute).
  set (A := a ^ Z.of_nat n) in *. set (B := b ^ Z.of_nat n) in *.
  set (C := c ^ Z.of_nat n) in *.
  intros HS Hu Herr [Hlo Hhi].
  assert (H1 : a * (ua + ux + rest) <= c * (u' + rest)) by (unfold a, c; lia).
  assert (H2 : c * (u' + rest) <= b * (ua + ux + rest)) by (unfold b, c; lia).
  split.
  - transitivity (A * (c * (u' + rest))).
    + replace (a * A * (ua + ux + rest)) with (A * (a * (ua + ux + rest))) by ring.
      by apply Z.mul_le_mono_nonneg_l.
    + replace (A * (c * (u' + rest))) with (c * (A * (u' + rest))) by ring.
      replace (U * (c * C)) with (c * (U * C)) by ring.
      apply Z.mul_le_mono_nonneg_l; [by compute|done].
  - transitivity (B * (c * (u' + rest))).
    + replace (U * (c * C)) with (c * (U * C)) by ring.
      replace (B * (c * (u' + rest))) with (c * (B * (u' + rest))) by ring.
      apply Z.mul_le_mono_nonneg_l; [by compute|done].
    + replace (b * B * (ua + ux + rest)) with (B * (b * (ua + ux + rest))) by ring.
      by apply Z.mul_le_mono_nonneg_l.
Qed.

Lemma fold_add_within l acc :
  nonneg_finite acc = true -> Forall (fun x => nonneg_finite x = true) l ->
  nonneg_finite (fold_left PrimFloat.add l acc) = true ->
  within (length l) (units (fold_left PrimFloat.add l acc))
    (units acc + zsum units l).
Proof.
  intros Hacc Hl. revert acc Hacc.
  induction Hl as [|x l Hx Hl IH]; intros acc Hacc Hfin; simpl.
  - unfold within. simpl. lia.
  - simpl in Hfin.
    destruct (add_nonneg_finite acc x Hacc Hx) as [Hinf|[Hs Herr]].
    + rewrite Hinf, fold_add_infinity in Hfin; [done|].
      eapply Forall_impl; [exact Hl|]. intros y Hy. by left.
    + rewrite Z.add_assoc. eapply within_step; [| |exact Herr|by apply IH].
      * apply zsum_nonneg, units_nonneg.
      * pose proof (units_nonneg acc). pose proof (units_nonneg x). lia.
Qed.

Lemma within_nonneg n x e : 0 <= e -> within n x e -> 0 <= x.
Proof.
  unfold within. intros He [Hlo _].
  assert (Ha : 0 <= (2 ^ 53 - 1) ^ Z.of_nat n) by (apply Z.pow_nonneg; by compute).
  assert (Hc : 0 < (2 ^ 53) ^ Z.of_nat n) by (apply Z.pow_pos_nonneg; lia).
  nia.
Qed.

Lemma within_self k x : 0 <= x -> within k x x.
Proof.
  intros Hx. unfold within.
  assert (H1 : (2 ^ 53 - 1) ^ Z.of_nat k <= (2 ^ 53) ^ Z.of_nat k)
    by (apply Z.pow_le_mono_l; lia).
  assert (H2 : (2 ^ 53) ^ Z.of_nat k <= (2 ^ 53 + 1) ^ Z.of_nat k)
    by (apply Z.pow_le_mono_l; lia).
  nia.
Qed.

Lemma within_trans m n x y e :
  within m x y -> within n y e -> within (m + n) x e.
Proof.
  unfold within. rewrite Nat2Z.inj_add, !Z.pow_add_r by lia.
  assert (Ha : 0 <= (2 ^ 53 - 1) ^ Z.of_nat m) by (apply Z.pow_nonneg; by compute).
  assert (Hb : 0 <= (2 ^ 53 + 1) ^ Z.of_nat m) by (apply Z.pow_nonneg; by compute).
  assert (Hc : 0 <= (2 ^ 53) ^ Z.of_nat n) by (apply Z.pow_nonneg; by compute).
  set (A := (2 ^ 53 - 1) ^ Z.of_nat m) in *.
  set (B := (2 ^ 53 + 1) ^ Z.of_nat m) in *.
  set (C := (2 ^ 53) ^ Z.of_nat m) in *.
  set (A' := (2 ^ 53 - 1) ^ Z.of_nat n) in *.
  set (B' := (2 ^ 53 + 1) ^ Z.of_nat n) in *.
  set (C' := (2 ^ 53) ^ Z.of_nat n) in *.
  intros [H1 H2] [H3 H4]. split.
  - transitivity (A * (y * C')).
    + rewrite <- Z.mul_assoc. by apply Z.mul_le_mono_nonneg_l.
    + replace (A * (y * C')) with (A * y * C') by ring.
      replace (x * (C * C')) with (x * C * C') by ring.
      by apply Z.mul_le_mono_nonneg_r.
  - transitivity (B * (y * C')).
    + replace (B * (y * C')) with (B * y * C') by ring.
      replace (x * (C * C')) with (x * C * C') by ring.
      by apply Z.mul_le_mono_nonneg_r.
    + rewrite <- Z.mul_assoc. by apply Z.mul_le_mono_nonneg_l.
Qed.

Lemma within_weaken n n' x e :
  (n <= n')%nat -> 0 <= e -> within n x e -> within n' x e.
Proof.
  intros Hn He H. replace n' with ((n' - n) + n)%nat by lia.
  eapply within_trans; [|exact H]. apply within_self.
  by eapply within_nonneg.
Qed.

(** Rounding down and then up at most returns: [(1 - u) (1 + u) <= 1],
    and [1 <= (1 - u) (1 + u)^2], for [u = 2^-53]. *)
Lemma within_inv n y e : 0 <= e -> within n y e -> within (2 * n) e y.
Proof.
  unfold within. intros He [Hlo Hhi].
  replace (Z.of_nat (2 * n)) with (Z.of_nat n + Z.of_nat n) by lia.
  rewrite !Z.pow_add_r by lia.
  set (a := 2 ^ 53 - 1) in *. set (b := 2 ^ 53 + 1) in *.
  set (c := 2 ^ 53) in *.
  assert (Ha : 0 < a ^ Z.of_nat n) by (apply Z.pow_pos_nonneg; [by compute|lia]).
  assert (Hb : 0 < b ^ Z.of_nat n) by (apply Z.pow_pos_nonneg; [by compute|lia]).
  assert (Hc : 0 < c ^ Z.of_nat n) by (apply Z.pow_pos_nonneg; [by compute|lia]).
  assert (Hab : a ^ Z.of_nat n * b ^ Z.of_nat n <= c ^ Z.of_nat n * c ^ Z.of_nat n).
  { rewrite <- !Z.pow_mul_l. apply Z.pow_le_mono_l. by compute. }
  assert (Hcab : c ^ Z.of_nat n * (c ^ Z.of_nat n * c ^ Z.of_nat n)
                 <= a ^ Z.of_nat n * (b ^ Z.of_nat n * b ^ Z.of_nat n)).
  { rewrite <- !Z.pow_mul_l. apply Z.pow_le_mono_l. by compute. }
  assert (Hac : a ^ Z.of_nat n <= c ^ Z.of_nat n)
    by (apply Z.pow_le_mono_l; by compute).
  set (A := a ^ Z.of_nat n) in *. set (B := b ^ Z.of_nat n) in *.
  set (C := c ^ Z.of_nat n) in *.
  assert (Hy : 0 <= y) by nia.
  split.
  - (* A * A * y <= e * (C * C) *)
    assert (H1 : A * y <= C * e).
    { apply (Z.mul_le_mono_pos_l _ _ C); [done|].
      transitivity (A * (B * e)); [|nia].
      replace (C * (A * y)) with (A * (y * C)) by ring.
      apply Z.mul_le_mono_nonneg_l; lia. }
    transitivity (A * (C * e)); [|nia].
    replace (A * A * y) with (A * (A * y)) by ring.
    apply Z.mul_le_mono_nonneg_l; lia.
  - (* e * (C * C) <= B * B * y *)
    apply (Z.mul_le_mono_pos_l _ _ A); [done|].
    transitivity (C * (C * C) * y).
    + replace (A * (e * (C * C))) with ((C * C) * (A * e)) by ring.
      replace (C * (C * C) * y) with ((C * C) * (y * C)) by ring.
      apply Z.mul_le_mono_nonneg_l; nia.
    + replace (A * (B * B * y)) with (A * (B * B) * y) by ring.
      apply Z.mul_le_mono_nonneg_r; lia.
Qed.

Lemma within_zsum {A : Type} n (f g : A -> Z) l :
  Forall (fun i => within n (f i) (g i)) l -> within n (zsum f l) (zsum g l).
Proof.
  unfold within. induction 1 as [|i l [H1 H2] _ [IH1 IH2]]; simpl; [lia|].
  rewrite !Z.mul_add_distr_l, !Z.mul_add_distr_r. lia.
Qed.

(** The exact sum over the buckets is the exact sum over the records. *)
Lemma zsum_buckets {A K : Type} `{EqDecision K} (key : A -> K) (u : A -> Z)
    (keys : list K) (l : list A) :
  NoDup keys -> (forall r, r ∈ l -> key r ∈ keys) ->
  zsum (fun k => zsum u (filter (fun r => key r = k) l)) keys = zsum u l.
Proof.
  intros Hnd. induction l as [|r l IH]; intros Hin.
  - clear. induction keys as [|k keys IH]; [done|].
    change (0 + zsum (fun k => zsum u (filter (fun r => key r = k) [])) keys = 0).
    by rewrite IH.
  - simpl. rewrite <- IH by (intros r' Hr'; apply Hin; by right).
    assert (Hr : key r ∈ keys) by (apply Hin; by left).
    clear IH Hin. induction Hnd as [|k keys Hk Hnd IH]; [by inversion Hr|].
    simpl. rewrite filter_cons.
    destruct (decide (key r = k)) as [E|Hne]; simpl.
    + assert (Hrest : zsum (fun k0 => zsum u (filter (fun r0 => key r0 = k0) (r :: l))) keys
                      = zsum (fun k0 => zsum u (filter (fun r0 => key r0 = k0) l)) keys).
      { clear IH Hr Hnd. subst k. induction keys as [|k' keys IH]; simpl; [done|].
        rewrite filter_cons.
        destruct (decide (key r = k')) as [E|Hne].
        - exfalso. apply Hk. rewrite E. by left.
        - rewrite IH; [done|]. intros H. apply Hk. by right. }
      rewrite Hrest. lia.
    + assert (Hr' : key r ∈ keys).
      { apply elem_of_cons in Hr as [E|Hr]; [by symmetry in E|done]. }
      specialize (IH Hr'). lia.
Qed.



(** ** The descending stable sort *)

Section Sorting.
Context {A : Type}.
Implicit Types (x : float * A) (l : list (float * A)).

Lemma insert_desc_perm x l : insert_desc x l ≡ₚ x :: l.
Proof.
  induction l as [|y l IH]; simpl; [done|].
  destruct (PrimFloat.ltb _ _); [|done].
  rewrite IH. apply Permutation_swap.
Qed.

Lemma sort_desc_perm l : sort_desc l ≡ₚ l.
Proof.
  induction l as [|x l IH]; simpl; [done|].
  by rewrite insert_desc_perm, IH.
Qed.

Lemma sort_desc_no_nan l : no_nan l -> no_nan (sort_desc l).
Proof. unfold no_nan. by rewrite sort_desc_perm. Qed.

Lemma insert_desc_sorted x l :
  is_nan (fst x) = false -> no_nan l ->
  StronglySorted desc l -> StronglySorted desc (insert_desc x l).
Proof.
  intros Hx Hl Hs. induction Hs as [|y l Hs IH Hy]; simpl.
  - repeat constructor.
  - apply Forall_cons in Hl as [Hny Hl].
    destruct (PrimFloat.ltb (fst x) (fst y)) eqn:Hxy.
    + constructor; [by apply IH|].
      rewrite insert_desc_perm. constructor; [|done].
      by apply ltb_asym.
    + constructor; [by constructor|].
      constructor; [done|].
      rewrite Forall_forall in Hy, Hl |- *. intros z Hz.
      apply (ltb_false_trans _ (fst y)); auto. by apply Hy.
Qed.

Lemma sort_desc_sorted l : no_nan l -> StronglySorted desc (sort_desc l).
Proof.
  induction l as [|x l IH]; simpl; intros Hl; [constructor|].
  apply Forall_cons in Hl as [Hx Hl].
  apply insert_desc_sorted; auto using sort_desc_no_nan.
Qed.

(** Sorting a list that is in descending order leaves it as it is. *)
Lemma sort_desc_fixed l : StronglySorted desc l -> sort_desc l = l.
Proof.
  induction 1 as [|x l Hs IH Hx]; simpl; [done|].
  rewrite IH. destruct l as [|y l]; simpl; [done|].
  apply Forall_cons in Hx as [Hxy _]. unfold desc in Hxy. by rewrite Hxy.
Qed.

Lemma insert_desc_stable v x l :
  filter (tied v) (insert_desc x l) = filter (tied v) (x :: l).
Proof.
  induction l as [|y l IH]; simpl; [done|].
  destruct (PrimFloat.ltb (fst x) (fst y)) eqn:Hxy; [|done].
  rewrite filter_cons, IH, !filter_cons.
  destruct (decide (tied v y)) as [Hy|]; [|done].
  destruct (decide (tied v x)) as [Hx|]; [|done].
  unfold tied in Hx, Hy. by rewrite (eqb_ltb _ _ _ Hx Hy) in Hxy.
Qed.

(** Stability: elements with equal keys keep their relative order. *)
Lemma sort_desc_stable v l : filter (tied v) (sort_desc l) = filter (tied v) l.
Proof.
  induction l as [|x l IH]; simpl; [done|].
  by rewrite insert_desc_stable, !filter_cons, IH.
Qed.

End Sorting.

(** ** The compactor *)

Lemma sortable_key x :
  sortable x = true -> row_key x = Ok (key_of x) /\ is_nan (key_of x) = false.
Proof.
  unfold sortable, key_of. destruct (row_key x) as [f|]; simpl; [|done].
  intros H. split; [done|]. by apply negb_true_iff.
Qed.

Lemma keys_computed aggregated :
  Forall (fun x => sortable x = true) aggregated ->
  mapM (fun x => do k <- row_key x ;; Ok (k, x)) aggregated
  = Ok (map keyed aggregated).
Proof.
  induction 1 as [|x l Hx _ IH]; simpl; [done|].
  destruct (sortable_key x Hx) as [-> _]. simpl. by rewrite IH.
Qed.

Lemma sorted_rows_sortable aggregated :
  Forall (fun x => sortable x = true) aggregated ->
  sorted_rows aggregated = Ok (sort_rows aggregated).
Proof. intros H. unfold sorted_rows. by rewrite keys_computed. Qed.

Lemma keyed_no_nan aggregated :
  Forall (fun x => sortable x = true) aggregated ->
  no_nan (map keyed aggregated).
Proof.
  unfold no_nan. rewrite Forall_map. intros H. eapply Forall_impl; [exact H|].
  intros x Hx. by apply sortable_key.
Qed.

(** Sorting the decorated rows gives the sorted rows, decorated. *)
Lemma sort_desc_keyed aggregated :
  sort_desc (map keyed aggregated) = map keyed (sort_rows aggregated).
Proof.
  unfold sort_rows.
  assert (H : Forall (fun p => p = keyed (snd p))
                (sort_desc (map keyed aggregated))).
  { rewrite sort_desc_perm, Forall_map. by apply Forall_true. }
  induction H as [|p l Hp _ IH]; simpl; [done|]. by rewrite <- Hp, <- IH.
Qed.

Lemma sort_rows_perm aggregated : sort_rows aggregated ≡ₚ aggregated.
Proof.
  unfold sort_rows. rewrite sort_desc_perm, map_map. simpl.
  by rewrite map_id.
Qed.

Lemma sort_rows_sorted aggregated :
  Forall (fun x => sortable x = true) aggregated ->
  StronglySorted desc (map keyed (sort_rows aggregated)).
Proof.
  intros H. rewrite <- sort_desc_keyed.
  by apply sort_desc_sorted, keyed_no_nan.
Qed.


Lemma take_sorted {B : Type} (R : relation B) n (l : list B) :
  StronglySorted R l -> StronglySorted R (take n l).
Proof.
  intros H. rewrite <- (take_drop n l) in H.
  by apply StronglySorted_app_1_l in H.
Qed.

Lemma compact_rows_sortable aggregated k :
  0 <= k -> Forall (fun x => sortable x = true) aggregated ->
  compact_rows aggregated k = Ok (take (Z.to_nat k) (sort_rows aggregated)).
Proof.
  intros Hk H. unfold compact_rows. rewrite sorted_rows_sortable by done.
  simpl. unfold slice_to. by destruct (Z.ltb_spec k 0); [lia|].
Qed.






(** C7: compacting a compacted list with the same bound returns it
    unchanged.  The rows are aggregated rows: each [total_cost] coerces to
    a number (not NaN). *)
Theorem compact_idempotent (A : list row) (k : Z) (sid sid' : string)
    (st st' : store) :
  0 <= k -> Forall (fun x => sortable x = true) A ->
  exists out,
    fst (compact_aggregated_costs A k sid st) = Ok out /\
    fst (compact_aggregated_costs out k sid' st') = Ok out.
Proof.
  intros Hk H. set (out := take (Z.to_nat k) (sort_rows A)). exists out.
  assert (Hout : Forall (fun x => sortable x = true) out).
  { apply Forall_take. by rewrite sort_rows_perm. }
  unfold compact_aggregated_costs. rewrite !compact_rows_sortable by done.
  split; [done|]. simpl. f_equal.
  assert (Hfix : sort_rows out = out).
  { unfold sort_rows. rewrite sort_desc_fixed.
    - by rewrite map_map, map_id.
    - unfold out. rewrite <- firstn_map. by apply take_sorted, sort_rows_sorted. }
  rewrite Hfix. unfold out. rewrite take_take. f_equal. lia.
Qed.

(** ** The aggregator *)

Lemma py_float_raises v e : py_float v = Raise e -> InvalidRecordField e.
Proof.
  clear json_loads. unfold InvalidRecordField, py_float, int_to_float.
  destruct v as [|b|z|f|s]; try destruct (str_to_float s);
    repeat case_match; naive_solver.
Qed.

Lemma aggregate_step_coercible totals r :
  coercible r = true -> aggregate_step totals r = Ok (add_record totals r).
Proof.
  unfold coercible, aggregate_step, add_record, cost_of, hours_of.
  intros [H1 H2]%andb_true_iff.
  destruct (py_float (get_default (rec_cost r) _)); [|done].
  by destruct (py_float (get_default (rec_hours r) _)).
Qed.

Lemma aggregate_step_raises totals r :
  coercible r = false ->
  exists e, InvalidRecordField e /\ aggregate_step totals r = Raise e.
Proof.
  unfold coercible, aggregate_step. intros H.
  destruct (py_float (get_default (rec_cost r) _)) as [c|e] eqn:Hc; simpl.
  - destruct (py_float (get_default (rec_hours r) _)) as [h|e] eqn:Hh;
      [done|]. eauto using py_float_raises.
  - eauto using py_float_raises.
Qed.

Lemma aggregate_loop records totals :
  if forallb coercible records
  then foldM aggregate_step records totals
       = Ok (fold_left add_record records totals)
  else exists e, InvalidRecordField e /\
         foldM aggregate_step records totals = Raise e.
Proof.
  revert totals. induction records as [|r records IH]; intros totals; simpl;
    [done|].
  destruct (coercible r) eqn:Hr; simpl.
  - rewrite aggregate_step_coercible by done. simpl. apply IH.
  - destruct (aggregate_step_raises totals r Hr) as (e & He & ->). eauto.
Qed.

(** C5: [aggregate_costs] returns (and stores) its rows whenever every
    record's [cost] and [hours] coerce to a number, absent entries counting
    as 0.0; when some record has a [cost] or [hours] that does not coerce,
    the coercion failure is raised to the caller, no row is returned and the
    store is left as it was. *)
Theorem aggregate_reports_invalid_fields (records : list record)
    (sid : string) (st : store) :
  if forallb coercible records
  then exists rows,
         aggregate_costs records sid st
         = (Ok rows, write_memory sid (set_last_aggregated rows) st)
  else exists e,
         InvalidRecordField e /\
         aggregate_costs records sid st = (Raise e, st).
Proof.
  unfold aggregate_costs, aggregate_rows.
  pose proof (aggregate_loop records []) as H.
  destruct (forallb coercible records).
  - rewrite H. simpl. eauto.
  - destruct H as (e & He & ->). simpl. eauto.
Qed.

Lemma elem_of_map {B C : Type} (f : B -> C) (l : list B) (x : B) :
  x ∈ l -> f x ∈ map f l.
Proof. apply (list_elem_of_fmap_2 f). Qed.

(** The two ways the loop body changes [totals]: the bucket of the key
    is updated in place, or a bucket is appended when the key is new. *)
Lemma add_to_totals_cases key cost hrs (totals : totals_t) :
  (exists t1 tc th t2,
     totals = t1 ++ (key, (tc, th)) :: t2 /\ (key ∉ map fst t1) /\
     add_to_totals key cost hrs totals
     = t1 ++ (key, (tc + cost, th + hrs)%float) :: t2) \/
  ((key ∉ map fst totals) /\
   add_to_totals key cost hrs totals
   = totals ++ [(key, (0 + cost, 0 + hrs)%float)]).
Proof.
  induction totals as [|[k [tc th]] t IH]; simpl.
  - right. split; [apply not_elem_of_nil|done].
  - destruct (decide (k = key)) as [->|Hne].
    + left. exists [], tc, th, t. repeat split. apply not_elem_of_nil.
    + destruct IH as [(t1 & tc' & th' & t2 & -> & Hk & ->)|[Hk ->]].
      * left. exists ((k, (tc, th)) :: t1), tc', th', t2. repeat split.
        simpl. rewrite not_elem_of_cons. by split.
      * right. split; [|done]. rewrite not_elem_of_cons. by split.
Qed.

Lemma fsum_snoc l c : fsum (l ++ [c]) = (fsum l + c)%float.
Proof. unfold fsum. by rewrite fold_left_app. Qed.

Lemma bucket_records_snoc key records r :
  bucket_records key (records ++ [r])
  = bucket_records key records ++ (if decide (record_key r = key) then [r] else []).
Proof.
  unfold bucket_records. by rewrite filter_app.
Qed.

Lemma bucket_sums_other records r b :
  record_key r <> fst b -> bucket_sums records b -> bucket_sums (records ++ [r]) b.
Proof.
  unfold bucket_sums. intros Hne ->. rewrite bucket_records_snoc.
  destruct (decide _); [done|]. by rewrite app_nil_r.
Qed.

Lemma totals_inv_step records totals r :
  totals_inv records totals ->
  totals_inv (records ++ [r]) (add_record totals r).
Proof.
  intros (Hnd & Hkeys & Hsums). unfold add_record.
  assert (Hrec : forall key, key ∈ map record_key (records ++ [r])
                   <-> key ∈ map record_key records \/ key = record_key r).
  { intros key. rewrite map_app. simpl.
    by rewrite elem_of_app, list_elem_of_singleton. }
  destruct (add_to_totals_cases (record_key r) (cost_of r) (hours_of r) totals)
    as [(t1 & tc & th & t2 & -> & Hk & ->)|[Hk ->]].
  - assert (Hmap : forall v, map fst (t1 ++ (record_key r, v) :: t2)
                     = map fst (t1 ++ (record_key r, (tc, th)) :: t2)).
    { intros v. by rewrite !map_app. }
    split; [by rewrite Hmap|]. split.
    + intros key. rewrite Hmap, Hrec, Hkeys. split; [by left|].
      intros [H| ->]; [done|]. apply Hkeys. rewrite map_app.
      apply elem_of_app. right. apply elem_of_cons. by left.
    + rewrite map_app in Hnd. simpl in Hnd.
      apply NoDup_app in Hnd as (_ & _ & Hnd2).
      apply NoDup_cons in Hnd2 as [Hk2 _].
      apply Forall_app in Hsums as [H1 H2].
      apply Forall_cons in H2 as [Hb H2].
      apply Forall_app. split; [|apply Forall_cons; split].
      * rewrite Forall_forall in H1 |- *. intros b Hb1.
        apply bucket_sums_other; [|by apply H1].
        intros E. apply Hk. rewrite E. by apply elem_of_map.
      * unfold bucket_sums in Hb |- *. simpl in *.
        rewrite bucket_records_snoc, decide_True by done.
        rewrite !map_app. simpl. rewrite !fsum_snoc. by inversion Hb.
      * rewrite Forall_forall in H2 |- *. intros b Hb2.
        apply bucket_sums_other; [|by apply H2].
        intros E. apply Hk2. rewrite E. by apply elem_of_map.
  - assert (Hmap : map fst (totals ++ [(record_key r,
                     (0 + cost_of r, 0 + hours_of r)%float)])
                   = map fst totals ++ [record_key r]).
    { by rewrite map_app. }
    split; [|split].
    + rewrite Hmap. apply NoDup_app. split; [done|]. split.
      * intros key H1 H2%list_elem_of_singleton. by subst.
      * apply NoDup_singleton.
    + intros key.
      by rewrite Hmap, Hrec, elem_of_app, list_elem_of_singleton, Hkeys.
    + apply Forall_app. split.
      * rewrite Forall_forall in Hsums |- *. intros b Hb.
        apply bucket_sums_other; [|by apply Hsums].
        intros E. apply Hk. rewrite E. by apply elem_of_map.
      * apply Forall_singleton. unfold bucket_sums. simpl.
        rewrite bucket_records_snoc, decide_True by done.
        assert (Hnone : bucket_records (record_key r) records = []).
        { destruct (bucket_records _ records) as [|r' l] eqn:E; [done|].
          assert (Hr' : r' ∈ bucket_records (record_key r) records)
            by (rewrite E; apply elem_of_cons; by left).
          apply list_elem_of_filter in Hr' as [Hkey Hr'].
          exfalso. apply Hk, Hkeys. rewrite <- Hkey. by apply elem_of_map. }
        by rewrite Hnone.
Qed.

Lemma totals_inv_loop records :
  totals_inv records (fold_left add_record records []).
Proof.
  induction records as [|r records IH] using rev_ind.
  - repeat split; simpl; [constructor|done|done|constructor].
  - rewrite fold_left_app. simpl. by apply totals_inv_step.
Qed.

Lemma aggregate_rows_coercible records :
  Forall (fun r => coercible r = true) records ->
  aggregate_rows records
  = Ok (map snd (sort_desc (map bucket_row (fold_left add_record records [])))).
Proof.
  intros H. unfold aggregate_rows.
  pose proof (aggregate_loop records []) as Hloop.
  assert (Hall : forallb coercible records = true).
  { apply forallb_forall. intros r Hr. rewrite Forall_forall in H.
    by apply H, list_elem_of_In. }
  rewrite Hall in Hloop. by rewrite Hloop.
Qed.

Lemma row_pair_bucket_row b : row_pair (snd (bucket_row b)) = fst b.
Proof. by destruct b as [[reg cat] [tc th]]. Qed.

Lemma bucket_row_sums records b :
  bucket_sums records b -> row_sums records (snd (bucket_row b)).
Proof.
  destruct b as [[reg cat] [tc th]]. unfold bucket_sums, row_sums. simpl.
  intros H. by inversion H.
Qed.

Lemma zsum_map {B C : Type} (f : C -> Z) (g : B -> C) l :
  zsum f (map g l) = zsum (fun x => f (g x)) l.
Proof. induction l as [|x l IH]; simpl; congruence. Qed.

Lemma fold_add_nonneg l acc :
  nonneg acc -> Forall (fun x => nonneg_finite x = true) l ->
  nonneg (fold_left PrimFloat.add l acc).
Proof.
  intros Hacc Hl. revert acc Hacc.
  induction Hl as [|x l Hx _ IH]; intros acc Hacc; simpl; [done|].
  apply IH, add_nonneg; [done|by left].
Qed.

(** A sum of floats that are not negative, when it is finite, is the
    exact sum up to one rounding for each term. *)
Lemma fsum_within l :
  Forall (fun x => nonneg_finite x = true) l ->
  nonneg_finite (fsum l) = true ->
  within (length l) (units (fsum l)) (zsum units l).
Proof. intros Hl Hfin. by apply (fold_add_within l 0%float). Qed.

(** The totals of the rows against the costs of the records. *)
Lemma totals_within records out :
  NoDup (map row_pair out) ->
  (forall p, p ∈ map row_pair out <-> p ∈ map record_key records) ->
  Forall (row_sums records) out ->
  Forall (fun r => nonneg_finite (cost_of r) = true) records ->
  nonneg_finite (fsum (map total_cost_float out)) = true ->
  nonneg_finite (fsum (map cost_of records)) = true ->
  let exact := zsum (fun r => units (cost_of r)) records in
  let n := length records in
  within n (zsum (fun x => units (total_cost_float x)) out) exact /\
  within (2 * n) (units (fsum (map total_cost_float out))) exact /\
  within n (units (fsum (map cost_of records))) exact /\
  within (4 * n) (units (fsum (map total_cost_float out)))
    (units (fsum (map cost_of records))).
Proof.
  intros Hnd Hkeys Hsums Hcost HT HR exact n.
  assert (Hexact : 0 <= exact).
  { apply zsum_nonneg. intros r. apply units_nonneg. }
  assert (Htot : Forall (fun x => total_cost_float x
                   = fsum (map cost_of (bucket_records (row_pair x) records)))
                   out).
  { eapply Forall_impl; [exact Hsums|]. intros x (_ & _ & Htc & _).
    unfold total_cost_float. by rewrite Htc. }
  assert (Hbucket : forall p, Forall (fun c => nonneg_finite c = true)
                     (map cost_of (bucket_records p records))).
  { intros p. rewrite Forall_map, Forall_forall. intros r Hr.
    apply list_elem_of_filter in Hr as [_ Hr].
    rewrite Forall_forall in Hcost. by apply Hcost. }
  assert (Hnn : Forall nonneg (map total_cost_float out)).
  { rewrite Forall_map. eapply Forall_impl; [exact Htot|]. intros x ->.
    apply fold_add_nonneg; [by left|apply Hbucket]. }
  destruct (fold_add_finite _ 0%float ltac:(by left) Hnn HT) as [_ Hfin].
  rewrite Forall_map in Hfin.
  assert (Hrows : within n (zsum (fun x => units (total_cost_float x)) out)
                    exact).
  { replace exact
      with (zsum (fun x => zsum (fun r => units (cost_of r))
                             (bucket_records (row_pair x) records)) out).
    - apply within_zsum. rewrite Forall_forall in Htot, Hfin |- *.
      intros x Hx. specialize (Hfin x Hx). rewrite (Htot x Hx) in Hfin |- *.
      pose proof (fsum_within _ (Hbucket (row_pair x)) Hfin) as Hw.
      rewrite zsum_map, length_map in Hw.
      eapply within_weaken; [| |exact Hw].
      + apply length_filter.
      + apply zsum_nonneg. intros r. apply units_nonneg.
    - rewrite <- (zsum_map (fun p => zsum (fun r => units (cost_of r))
                                      (bucket_records p records)) row_pair).
      apply (zsum_buckets record_key); [done|].
      intros r Hr. apply Hkeys. by apply elem_of_map. }
  assert (HTe : within (2 * n) (units (fsum (map total_cost_float out)))
                  exact).
  { assert (Hlen : (length out <= n)%nat).
    { unfold n.
      rewrite <- (length_map row_pair out), <- (length_map record_key records).
      apply submseteq_length, NoDup_submseteq; [done|].
      intros p. apply Hkeys. }
    apply (within_weaken (length out + n)); [lia|done|].
    eapply within_trans; [|exact Hrows].
    pose proof (fsum_within (map total_cost_float out)) as Hw.
    rewrite zsum_map, length_map, Forall_map in Hw. by apply Hw. }
  assert (HRe : within n (units (fsum (map cost_of records))) exact).
  { pose proof (fsum_within (map cost_of records)) as Hw.
    rewrite zsum_map, length_map, Forall_map in Hw. by apply Hw. }
  split; [done|]. split; [done|]. split; [done|].
  replace (4 * n)%nat with (2 * n + 2 * n)%nat by lia.
  eapply within_trans; [exact HTe|]. by apply within_inv.
Qed.

(** C1, amended: when every record's [cost] and [hours] coerce,
    [aggregate_costs] returns exactly one row per distinct
    (region, category) pair of the records, and each row's [total_cost]
    and [hours] are the float sums, accumulated from 0.0 in input order, of
    the [cost] and [hours] of the records of its pair.  When moreover no
    [cost] is negative or infinite and the two grand totals are finite, the
    [total_cost] of the rows add up to the [cost] of the records within
    floating-point tolerance: with [n] records, the sum of the rows'
    [total_cost] is the sum of the records' [cost] up to [4 n] roundings,
    each of a relative error of [2^-53] at most, both sums added left to
    right from 0.0.  Against the exact sum of the costs, the first is
    within [2 n] roundings and the second within [n]; and so is, within
    [n], the exact sum of the rows' [total_cost], whatever the way the
    grand totals are then added. *)
Theorem aggregate_one_row_per_pair (records : list record) (sid : string)
    (st : store) :
  Forall (fun r => coercible r = true) records ->
  exists out,
    fst (aggregate_costs records sid st) = Ok out /\
    NoDup (map row_pair out) /\
    (forall p, p ∈ map row_pair out <-> p ∈ map record_key records) /\
    Forall (row_sums records) out /\
    (Forall (fun r => nonneg_finite (cost_of r) = true) records ->
     nonneg_finite (fsum (map total_cost_float out)) = true ->
     nonneg_finite (fsum (map cost_of records)) = true ->
     let exact := zsum (fun r => units (cost_of r)) records in
     let n := length records in
     within n (zsum (fun x => units (total_cost_float x)) out) exact /\
     within (2 * n) (units (fsum (map total_cost_float out))) exact /\
     within n (units (fsum (map cost_of records))) exact /\
     within (4 * n) (units (fsum (map total_cost_float out)))
       (units (fsum (map cost_of records)))).
Proof.
  intros H. unfold aggregate_costs. rewrite aggregate_rows_coercible by done.
  destruct (totals_inv_loop records) as (Hnd & Hkeys & Hsums).
  set (totals := fold_left add_record records []) in *.
  eexists. split; [done|].
  assert (Hperm : map snd (sort_desc (map bucket_row totals))
                  ≡ₚ map (fun b => snd (bucket_row b)) totals).
  { by rewrite sort_desc_perm, map_map. }
  assert (Hpairs : map row_pair (map snd (sort_desc (map bucket_row totals)))
                   ≡ₚ map fst totals).
  { rewrite Hperm, map_map. apply Permutation_refl'. apply map_ext.
    intros b. apply row_pair_bucket_row. }
  assert (H1 : NoDup (map row_pair
                 (map snd (sort_desc (map bucket_row totals)))))
    by (by rewrite Hpairs).
  assert (H2 : forall p,
             p ∈ map row_pair (map snd (sort_desc (map bucket_row totals)))
             <-> p ∈ map record_key records).
  { intros p. by rewrite Hpairs. }
  assert (H3 : Forall (row_sums records)
                 (map snd (sort_desc (map bucket_row totals)))).
  { rewrite Hperm, Forall_map. eapply Forall_impl; [exact Hsums|].
    intros b. apply bucket_row_sums. }
  split; [done|]. split; [done|]. split; [done|].
  by apply totals_within.
Qed.

(** ** The session store *)

Lemma write_memory_insert sid upd (st : store) :
  write_memory sid upd st = <[sid := upd (memory_of sid st)]> st.
Proof.
  unfold write_memory, _get_session_memory, memory_of.
  destruct (st !! sid); simpl; [done|]. apply insert_insert_eq.
Qed.

Lemma write_memory_frame f sid upd (st : store) :
  (forall m, same_except f m (upd m)) ->
  writes_only f sid st (write_memory sid upd st).
Proof.
  intros Hupd. rewrite write_memory_insert. split.
  - intros sid' Hne. by rewrite lookup_insert_ne.
  - right. eexists. split; [apply lookup_insert_eq|apply Hupd].
Qed.

Lemma writes_only_refl f sid (st : store) : writes_only f sid st st.
Proof. split; [done|by left]. Qed.

(** C10: each stage writes only its own field of the memory of the
    session it was given: [aggregate_costs] only [last_aggregated],
    [compact_aggregated_costs] only [last_compacted], [build_cost_table]
    only [last_summary].  The other fields of that memory (those of a fresh
    memory, all [None], when the session is new) and the memories of all
    other sessions are as before the call. *)
Theorem stages_write_own_field (records : list record) (rows : list row)
    (k : Z) (input : table_input) (sid : string) (st : store) :
  writes_only LastAggregated sid st (snd (aggregate_costs records sid st)) /\
  writes_only LastCompacted sid st
    (snd (compact_aggregated_costs rows k sid st)) /\
  writes_only LastSummary sid st (snd (build_cost_table input sid st)).
Proof.
  unfold aggregate_costs, compact_aggregated_costs, build_cost_table.
  split; [|split].
  - destruct (aggregate_rows records); simpl; [|apply writes_only_refl].
    apply write_memory_frame. intros m. by repeat split.
  - destruct (compact_rows rows k); simpl; [|apply writes_only_refl].
    apply write_memory_frame. intros m. by repeat split.
  - destruct (build_outcome input) as [[t|t]|]; simpl;
      try apply writes_only_refl.
    apply write_memory_frame. intros m. by repeat split.
Qed.

(** C6, amended: [get_last_summary] changes no memory that is in the
    store; it leaves the store as it was when the session is known, and
    otherwise adds to it the memory of the session with every field
    [None]. *)
Theorem get_last_summary_store (sid : string) (st : store) :
  let st' := snd (get_last_summary sid st) in
  (forall sid' mem, st !! sid' = Some mem -> st' !! sid' = Some mem) /\
  (is_Some (st !! sid) -> st' = st) /\
  (st !! sid = None -> st' = <[sid := new_memory]> st).
Proof.
  assert (H : snd (get_last_summary sid st) = snd (_get_session_memory sid st)).
  { unfold get_last_summary. destruct (_get_session_memory sid st) as [m st1].
    simpl. by destruct (last_summary m) as [[]|]. }
  simpl in *. rewrite H. unfold _get_session_memory.
  destruct (st !! sid) as [m|] eqn:E; simpl.
  - split; [done|]. split; [done|]. intros; discriminate.
  - split; [|split].
    + intros sid' mem Hm. rewrite lookup_insert_ne; [done|]. congruence.
    + by intros [? ?].
    + done.
Qed.

(** C8: on an empty input, a list of rows or a text that decodes to
    something empty, [build_cost_table] returns its fixed text and the
    store is as before the call. *)
Theorem build_cost_table_empty (input : table_input) (sid : string)
    (st : store) :
  empty_input input = true ->
  build_cost_table input sid st = (Ok "No cost data available.", st).
Proof.
  unfold empty_input, build_cost_table, build_outcome.
  destruct input as [[|x rows]|text]; simpl; try done.
  destruct (json_loads text) as [[[|x rows]|[]]|]; simpl; done.
Qed.

Lemma stored_summary_write sid sid' upd (st : store) :
  stored_summary sid (write_memory sid' upd st)
  = if decide (sid' = sid) then last_summary (upd (memory_of sid st))
    else stored_summary sid st.
Proof.
  rewrite write_memory_insert. unfold stored_summary.
  destruct (decide (sid' = sid)) as [->|Hne].
  - by rewrite lookup_insert_eq.
  - by rewrite lookup_insert_ne.
Qed.

Lemma stored_summary_keep sid sid' upd (st : store) :
  (forall m, last_summary (upd m) = last_summary m) ->
  stored_summary sid (write_memory sid' upd st) = stored_summary sid st.
Proof.
  intros Hupd. rewrite stored_summary_write.
  destruct (decide (sid' = sid)); [|done].
  rewrite Hupd. unfold stored_summary, memory_of.
  by destruct (st !! sid).
Qed.

(** After a call, the stored report of a session is the one the call
    produced for it, or else the one stored before. *)
Lemma stored_summary_run_call sid (st : store) c :
  stored_summary sid (run_call st c)
  = match report_of sid c with
    | Some text => Some text
    | None => stored_summary sid st
    end.
Proof.
  destruct c as [y s|rs s|rows k s|input s|s|q s res]; simpl.
  - by apply stored_summary_keep.
  - unfold aggregate_costs. destruct (aggregate_rows rs); simpl; [|done].
    by apply stored_summary_keep.
  - unfold compact_aggregated_costs.
    destruct (compact_rows rows k); simpl; [|done].
    by apply stored_summary_keep.
  - unfold build_cost_table.
    destruct (build_outcome input) as [[t|t]|]; simpl;
      try by destruct (decide (s = sid)).
    rewrite stored_summary_write. by destruct (decide (s = sid)).
  - unfold get_last_summary, _get_session_memory, stored_summary.
    destruct (st !! s) as [m|] eqn:E; simpl.
    + by destruct (last_summary m) as [[]|].
    + destruct (decide (s = sid)) as [->|Hne].
      * by rewrite lookup_insert_eq, E.
      * by rewrite lookup_insert_ne.
  - unfold google_search. destruct res; [|done].
    by apply stored_summary_keep.
Qed.

Lemma stored_summary_run sid calls (st : store) :
  stored_summary sid (run calls st)
  = last_report sid calls (stored_summary sid st).
Proof.
  revert st. unfold run, last_report.
  induction calls as [|c calls IH]; intros st; simpl; [done|].
  by rewrite IH, stored_summary_run_call.
Qed.

Lemma get_last_summary_returns sid (st : store) :
  fst (get_last_summary sid st)
  = match stored_summary sid st with
    | None | Some EmptyString => no_summary_text
    | Some summary => summary
    end.
Proof.
  unfold get_last_summary, _get_session_memory, stored_summary.
  destruct (st !! sid) as [m|]; simpl; [|done].
  by destruct (last_summary m) as [[]|].
Qed.

(** A report is never the empty text: it starts with the table header. *)
Lemma assemble_not_empty lines summary : assemble lines summary <> "".
Proof. done. Qed.

Lemma report_of_not_empty sid c text : report_of sid c = Some text -> text <> "".
Proof.
  destruct c as [| | |input s| |]; simpl; try done.
  destruct (decide (s = sid)); [|done].
  unfold build_outcome, render_decoded, render_report.
  intros H. repeat case_match; simplify_eq; try done.
  all: unfold bind in *; repeat case_match; simplify_eq;
    apply assemble_not_empty.
Qed.

Lemma last_report_not_empty sid calls acc text :
  (forall t, acc = Some t -> t <> "") ->
  last_report sid calls acc = Some text -> text <> "".
Proof.
  revert acc. unfold last_report.
  induction calls as [|c calls IH]; intros acc Hacc; simpl; [auto|].
  apply IH. intros t. destruct (report_of sid c) eqn:E; [|auto].
  intros [= <-]. by eapply report_of_not_empty.
Qed.

Lemma last_report_none sid calls acc :
  Forall (fun c => report_of sid c = None) calls ->
  last_report sid calls acc = acc.
Proof.
  unfold last_report. intros H. revert acc.
  induction H as [|c calls Hc _ IH]; intros acc; simpl; [done|].
  by rewrite Hc, IH.
Qed.

(** C4: in a process whose store starts out empty, [get_last_summary]
    for a session returns its fixed text as long as no [build_cost_table]
    call for that session has produced a report, and after such calls it
    returns the text which the most recent of them returned; whatever the
    store, right after a [build_cost_table] call that produced a report it
    returns the text that call returned. *)
Theorem get_last_summary_after (calls : list call) (sid : string) :
  fst (get_last_summary sid (run calls ∅))
  = default no_summary_text (last_report sid calls None) /\
  (Forall (fun c => report_of sid c = None) calls ->
   fst (get_last_summary sid (run calls ∅)) = no_summary_text) /\
  forall input text (st : store),
    build_outcome input = Ok (Report text) ->
    fst (build_cost_table input sid st) = Ok text /\
    fst (get_last_summary sid (snd (build_cost_table input sid st))) = text.
Proof.
  assert (Hrun : fst (get_last_summary sid (run calls ∅))
                 = default no_summary_text (last_report sid calls None)).
  { rewrite get_last_summary_returns, stored_summary_run.
    unfold stored_summary at 1. rewrite lookup_empty. simpl.
    destruct (last_report sid calls None) as [text|] eqn:E; [|done].
    apply last_report_not_empty in E; [|done].
    by destruct text. }
  split; [done|]. split.
  - intros H. by rewrite Hrun, last_report_none.
  - intros input text st H.
    pose proof (report_of_not_empty sid (RenderCall input sid) text) as Hne.
    simpl in Hne. rewrite decide_True, H in Hne by done.
    unfold build_cost_table. rewrite H. simpl. split; [done|].
    rewrite get_last_summary_returns, stored_summary_write, decide_True by done.
    simpl. destruct text; [by destruct Hne|done].
Qed.

(** ** The reporter *)

Lemma table_line_numeric x :
  numeric_row x = true -> exists line, table_line x = Ok line.
Proof.
  unfold numeric_row, table_line.
  destruct (total_cost x) as [[]|], (hours x) as [[]|]; simpl; try done; eauto.
Qed.

Lemma table_lines_numeric rows :
  Forall (fun x => numeric_row x = true) rows ->
  exists lines, table_lines rows = Ok lines.
Proof.
  unfold table_lines. induction 1 as [|x rows Hx _ [lines IH]]; simpl; [eauto|].
  destruct (table_line_numeric x Hx) as [line ->]. simpl. rewrite IH. simpl. eauto.
Qed.

Lemma complete_row_total_cost x :
  complete_row x -> exists f, total_cost x = Some (VFloat f).
Proof.
  unfold complete_row, has_keys, numeric_row. intros [Hk Hn].
  destruct (total_cost x) as [[]|]; try done; eauto.
  by rewrite andb_false_r in Hk.
Qed.

Lemma max_loop rest best :
  Forall complete_row rest ->
  complete_row (fst best) -> (exists f, snd best = VFloat f) ->
  exists top, foldM max_step rest best = Ok top /\ complete_row (fst top).
Proof.
  intros H. revert best. induction H as [|x rest Hx _ IH]; intros best Hb [f Hf];
    simpl; [eauto|].
  unfold max_step at 1. destruct (complete_row_total_cost x Hx) as [g Hg].
  rewrite Hg, Hf. simpl. destruct (PrimFloat.ltb f g); apply IH; simpl; eauto.
Qed.

Lemma max_complete rows :
  rows <> [] -> Forall complete_row rows ->
  exists top, max_by_total_cost rows = Ok top /\ complete_row top.
Proof.
  intros Hne H. destruct H as [|x rest Hx Hrest]; [done|]. simpl.
  destruct (complete_row_total_cost x Hx) as [f Hf]. rewrite Hf. simpl.
  destruct (max_loop rest (x, VFloat f) Hrest Hx) as (top & -> & Htop);
    simpl; eauto.
Qed.

Lemma category_total_loop name rows acc :
  Forall complete_row rows -> subtotal_value acc ->
  exists v, foldM (fun acc r =>
                     do c <- getitem (category r) ;;
                     if decide (c = LStr name)
                     then (do tc <- getitem (total_cost r) ;; py_add acc tc)
                     else Ok acc) rows acc = Ok v /\ subtotal_value v.
Proof.
  intros H. revert acc. induction H as [|x rows Hx _ IH]; intros acc Hacc;
    simpl; [eauto|].
  destruct (complete_row_total_cost x Hx) as [f Hf].
  destruct Hx as [Hk _]. unfold has_keys in Hk.
  destruct (category x) as [c|]; [|by rewrite andb_false_r in Hk]. simpl.
  destruct (decide (c = LStr name)); [|by apply IH].
  rewrite Hf. simpl.
  destruct Hacc as [->|[g ->]]; simpl; apply IH; right; eauto.
Qed.

Lemma format_subtotal v :
  subtotal_value v -> exists t, format_money_value v = Ok t.
Proof. intros [->|[f ->]]; simpl; eauto. Qed.

Lemma narrative_complete rows :
  rows <> [] -> Forall complete_row rows ->
  exists summary, narrative rows = Ok summary.
Proof.
  intros Hne H. unfold narrative.
  destruct (max_complete rows Hne H) as (top & -> & Htop). simpl.
  destruct (complete_row_total_cost top Htop) as [f Hf].
  destruct Htop as [Hk _]. unfold has_keys in Hk.
  destruct (region top); [|done].
  destruct (category top); [|by rewrite andb_false_r in Hk].
  rewrite Hf. simpl. unfold category_total.
  destruct (category_total_loop "aircraft" rows (VInt 0) H) as (a & -> & Ha);
    [by left|].
  destruct (category_total_loop "personnel" rows (VInt 0) H) as (b & -> & Hb);
    [by left|].
  destruct (category_total_loop "equipment" rows (VInt 0) H) as (c & -> & Hc);
    [by left|].
  simpl.
  destruct (format_subtotal a Ha) as [ta ->].
  destruct (format_subtotal b Hb) as [tb ->].
  destruct (format_subtotal c Hc) as [tc ->]. simpl. eauto.
Qed.

Lemma render_report_complete rows :
  rows <> [] -> Forall complete_row rows ->
  exists text, render_report rows = Ok text.
Proof.
  intros Hne H. unfold render_report.
  destruct (table_lines_numeric rows) as [lines ->].
  { eapply Forall_impl; [exact H|]. by intros x [_ Hx]. }
  destruct (narrative_complete rows Hne H) as [summary ->]. simpl. eauto.
Qed.

(** *** Rows whose numbers are floats or integers *)

















(** [mapM] maps the elements one by one. *)
Lemma mapM_Ok {B C : Type} (f : B -> result C) (d : C) l out :
  mapM f l = Ok out ->
  out = map (fun x => match f x with Ok y => y | Raise _ => d end) l.
Proof.
  revert out. induction l as [|x l IH]; intros out; simpl.
  - by intros [= <-].
  - destruct (f x) as [y|]; simpl; [|done].
    destruct (mapM f l) as [ys|]; simpl; [|done].
    intros [= <-]. by rewrite (IH ys).
Qed.

Lemma table_lines_perm rows1 rows2 lines1 lines2 :
  rows1 ≡ₚ rows2 ->
  table_lines rows1 = Ok lines1 -> table_lines rows2 = Ok lines2 ->
  lines1 ≡ₚ lines2.
Proof.
  unfold table_lines. intros Hp H1%(mapM_Ok _ "") H2%(mapM_Ok _ "").
  subst. by rewrite Hp.
Qed.

(** C3, amended: the text [build_cost_table] returns depends on the rows
    in their order only, not on the session or on the store; for two lists
    with the same rows in different orders the two reports hold the same
    table lines, each in the order of its input. *)
Theorem build_cost_table_deterministic (input : table_input)
    (sid1 sid2 : string) (st1 st2 : store) :
  fst (build_cost_table input sid1 st1)
  = fst (build_cost_table input sid2 st2) /\
  forall rows1 rows2 text1 text2,
    rows1 <> [] -> rows1 ≡ₚ rows2 ->
    fst (build_cost_table (Structured rows1) sid1 st1) = Ok text1 ->
    fst (build_cost_table (Structured rows2) sid2 st2) = Ok text2 ->
    exists lines1 lines2 summary1 summary2,
      table_lines rows1 = Ok lines1 /\ table_lines rows2 = Ok lines2 /\
      text1 = assemble lines1 summary1 /\ text2 = assemble lines2 summary2 /\
      lines1 ≡ₚ lines2.
Proof.
  split.
  { unfold build_cost_table. by destruct (build_outcome input) as [[]|]. }
  intros rows1 rows2 text1 text2 Hne Hp.
  assert (Hne2 : rows2 <> []).
  { intros ->. by apply Permutation_nil_r in Hp. }
  assert (Hrep : forall rows sid (st : store) text,
             rows <> [] ->
             fst (build_cost_table (Structured rows) sid st) = Ok text ->
             exists lines summary,
               table_lines rows = Ok lines /\ text = assemble lines summary).
  { intros rows sid st text Hr.
    unfold build_cost_table, build_outcome, render_decoded, render_report.
    destruct rows; [done|].
    destruct (table_lines _) as [lines|]; simpl; [|done].
    destruct (narrative _) as [summary|]; simpl; [|done].
    intros [= <-]. eauto. }
  intros (lines1 & s1 & Hl1 & ->)%Hrep (lines2 & s2 & Hl2 & ->)%Hrep; try done.
  exists lines1, lines2, s1, s2. repeat split; try done.
  by eapply table_lines_perm.
Qed.

(** ** Sessions across calls *)

(** X1: [_get_session_memory] is a get-or-create: the memory it returns
    is the one the store then holds for the session, a second call returns
    the same memory and leaves the store as it is, a memory that was there
    is returned as it was with the store unchanged, and the other sessions
    are not touched. *)
Theorem get_session_memory_idempotent (sid : string) (st : store) :
  let mem := fst (_get_session_memory sid st) in
  let st1 := snd (_get_session_memory sid st) in
  st1 !! sid = Some mem /\
  _get_session_memory sid st1 = (mem, st1) /\
  (forall m0, st !! sid = Some m0 -> mem = m0 /\ st1 = st) /\
  (st !! sid = None -> mem = new_memory) /\
  (forall sid', sid' <> sid -> st1 !! sid' = st !! sid').
Proof.
  unfold _get_session_memory. destruct (st !! sid) as [m|] eqn:E; simpl.
  - rewrite E. split; [done|]. split; [done|]. split; [|done].
    by intros m0 [= ->].
  - rewrite lookup_insert_eq. split; [done|]. split; [done|].
    split; [done|]. split; [done|].
    intros sid' Hne. by rewrite lookup_insert_ne.
Qed.

Lemma write_memory_lookup sid sid' upd (st : store) :
  write_memory sid' upd st !! sid
  = if decide (sid' = sid) then Some (upd (memory_of sid st)) else st !! sid.
Proof.
  rewrite write_memory_insert. destruct (decide (sid' = sid)) as [->|Hne].
  - by rewrite lookup_insert_eq.
  - by rewrite lookup_insert_ne.
Qed.

Lemma get_last_summary_lookup sid sid' (st : store) :
  snd (get_last_summary sid' st) !! sid
  = if decide (sid' = sid) then Some (memory_of sid st) else st !! sid.
Proof.
  unfold get_last_summary, _get_session_memory, memory_of.
  destruct (decide (sid' = sid)) as [->|Hne].
  - destruct (st !! sid) as [m|] eqn:E; simpl.
    + by destruct (last_summary m) as [[]|].
    + by rewrite lookup_insert_eq.
  - destruct (st !! sid') as [m|] eqn:E; simpl.
    + by destruct (last_summary m) as [[]|].
    + by rewrite lookup_insert_ne.
Qed.

(** What a call does to the memory of a session: nothing when the call is
    for another session, and otherwise something that depends on that
    memory only. *)
Lemma run_call_local sid (st1 st2 : store) c :
  st1 !! sid = st2 !! sid ->
  run_call st1 c !! sid
  = if decide (call_session c = sid) then run_call st2 c !! sid
    else st2 !! sid.
Proof.
  intros H.
  assert (Hm : memory_of sid st1 = memory_of sid st2)
    by (unfold memory_of; by rewrite H).
  destruct c as [y s|rs s|rows k s|input s|s|q s res]; simpl.
  - rewrite !write_memory_lookup, Hm. by destruct (decide (s = sid)).
  - unfold aggregate_costs. destruct (aggregate_rows rs); simpl.
    + rewrite !write_memory_lookup, Hm. by destruct (decide (s = sid)).
    + by destruct (decide (s = sid)).
  - unfold compact_aggregated_costs. destruct (compact_rows rows k); simpl.
    + rewrite !write_memory_lookup, Hm. by destruct (decide (s = sid)).
    + by destruct (decide (s = sid)).
  - unfold build_cost_table. destruct (build_outcome input) as [[t|t]|]; simpl.
    + by destruct (decide (s = sid)).
    + rewrite !write_memory_lookup, Hm. by destruct (decide (s = sid)).
    + by destruct (decide (s = sid)).
  - rewrite !get_last_summary_lookup, Hm. by destruct (decide (s = sid)).
  - unfold google_search. destruct res.
    + rewrite !write_memory_lookup, Hm. by destruct (decide (s = sid)).
    + by destruct (decide (s = sid)).
Qed.

Lemma run_local sid calls (st1 st2 : store) :
  st1 !! sid = st2 !! sid ->
  run calls st1 !! sid
  = run (filter (fun c => call_session c = sid) calls) st2 !! sid.
Proof.
  unfold run. revert st1 st2.
  induction calls as [|c calls IH]; intros st1 st2 H; simpl; [done|].
  rewrite filter_cons. destruct (decide (call_session c = sid)) as [Hc|Hc].
  - simpl. apply IH. by rewrite (run_call_local sid st1 st2 c H), decide_True.
  - apply IH. by rewrite (run_call_local sid st1 st2 c H), decide_False.
Qed.

(** X2: sessions are isolated.  The memory a session has after a
    sequence of calls is the memory it has after those of the calls that
    were made for it, whatever was called for other sessions in between. *)
Theorem session_isolation (calls : list call) (sid : string) (st : store) :
  run calls st !! sid
  = run (filter (fun c => call_session c = sid) calls) st !! sid.
Proof. by apply run_local. Qed.











(** ** More on the aggregator *)

Lemma aggregate_rows_inv records out :
  aggregate_rows records = Ok out ->
  out = map snd (sort_desc (map bucket_row (fold_left add_record records []))).
Proof.
  unfold aggregate_rows. pose proof (aggregate_loop records []) as H.
  destruct (forallb coercible records).
  - rewrite H. simpl. by intros [= <-].
  - by destruct H as (e & _ & ->).
Qed.

(** The keys of [totals] are the keys in the order of their first
    record. *)
Lemma totals_first_seen records :
  map fst (fold_left add_record records []) = first_seen records.
Proof.
  unfold first_seen.
  assert (H : forall totals,
             map fst (fold_left add_record records totals)
             = fold_left (fun seen r =>
                            if decide (record_key r ∈ seen) then seen
                            else seen ++ [record_key r])
                 records (map fst totals)); [|apply (H [])].
  induction records as [|r records IH]; intros totals; simpl; [done|].
  rewrite IH. f_equal. unfold add_record.
  destruct (add_to_totals_cases (record_key r) (cost_of r) (hours_of r) totals)
    as [(t1 & tc & th & t2 & -> & Hk & ->)|[Hk ->]].
  - rewrite !map_app. simpl. rewrite decide_True; [done|].
    apply elem_of_app. right. apply elem_of_cons. by left.
  - rewrite decide_False by done. by rewrite map_app.
Qed.

Lemma first_seen_length_le records :
  (length (first_seen records) <= length records)%nat.
Proof.
  unfold first_seen.
  assert (H : forall seen,
             (length (fold_left (fun seen r =>
                        if decide (record_key r ∈ seen) then seen
                        else seen ++ [record_key r]) records seen)
              <= length seen + length records)%nat); [|apply (H [])].
  induction records as [|r records IH]; intros seen; simpl; [lia|].
  etrans; [apply IH|]. destruct (decide _); [lia|].
  rewrite length_app. simpl. lia.
Qed.

Lemma aggregate_row_count_aux records :
  length (map snd (sort_desc (map bucket_row (fold_left add_record records []))))
  = length (first_seen records) /\
  (first_seen records = [] -> records = []).
Proof.
  split.
  - by rewrite length_map, sort_desc_perm, length_map,
      <- totals_first_seen, length_map.
  - intros E. destruct records as [|r records]; [done|]. exfalso.
    destruct (totals_inv_loop (r :: records)) as (_ & Hkeys & _).
    rewrite totals_first_seen, E in Hkeys.
    specialize (Hkeys (record_key r)). simpl in Hkeys.
    apply (not_elem_of_nil (record_key r)), Hkeys, elem_of_cons. by left.
Qed.

(** X4: [aggregate_costs] returns as many rows as the records have
    distinct (region, category) pairs, never more rows than records, and
    an empty list exactly for an empty list of records. *)
Theorem aggregate_row_count (records : list record) (out : list row) :
  aggregate_rows records = Ok out ->
  length out = length (first_seen records) /\
  (length out <= length records)%nat /\
  (out = [] <-> records = []).
Proof.
  intros ->%aggregate_rows_inv.
  assert (Hlen : length (map snd (sort_desc (map bucket_row
                   (fold_left add_record records []))))
                 = length (first_seen records)).
  { by rewrite length_map, sort_desc_perm, length_map,
      <- totals_first_seen, length_map. }
  split; [done|]. split; [rewrite Hlen; apply first_seen_length_le|].
  split.
  - intros E. rewrite E in Hlen. simpl in Hlen.
    destruct records as [|r records]; [done|]. exfalso.
    destruct (totals_inv_loop (r :: records)) as (_ & Hkeys & _).
    rewrite totals_first_seen in Hkeys.
    destruct (first_seen (r :: records)); [|done].
    specialize (Hkeys (record_key r)). simpl in Hkeys.
    apply (not_elem_of_nil (record_key r)), Hkeys, elem_of_cons. by left.
  - by intros ->.
Qed.

Lemma aggregate_step_defaults totals r :
  aggregate_step totals (with_defaults r) = aggregate_step totals r.
Proof. done. Qed.

(** X5: an absent entry is read as its default.  Filling in [None] for
    an absent ["region"] or ["category"] and 0.0 for an absent ["cost"] or
    ["hours"] changes nothing in what [aggregate_costs] returns, nor in
    whether it raises. *)
Theorem aggregate_defaults (records : list record) (sid : string)
    (st : store) :
  aggregate_costs (map with_defaults records) sid st
  = aggregate_costs records sid st.
Proof.
  unfold aggregate_costs, aggregate_rows.
  assert (H : forall totals,
             foldM aggregate_step (map with_defaults records) totals
             = foldM aggregate_step records totals).
  { induction records as [|r records IH]; intros totals; simpl; [done|].
    rewrite aggregate_step_defaults.
    destruct (aggregate_step totals r); simpl; [apply IH|done]. }
  by rewrite H.
Qed.

(** The rows of the buckets: each is keyed by its own [total_cost], can
    be keyed again by the compactor, and has every key with floats. *)
Lemma bucket_row_facts b :
  fst (bucket_row b) = total_cost_float (snd (bucket_row b)) /\
  row_key (snd (bucket_row b)) = Ok (fst (bucket_row b)) /\
  complete_row (snd (bucket_row b)).
Proof. by destruct b as [[reg cat] [tc th]]. Qed.

Lemma sorted_buckets_own_key (totals : totals_t) :
  Forall own_key (sort_desc (map bucket_row totals)).
Proof.
  rewrite sort_desc_perm, Forall_map. apply Forall_true.
  intros b. apply bucket_row_facts.
Qed.

Lemma desc_rows (S : list (float * row)) :
  Forall own_key S -> no_nan S -> StronglySorted desc S ->
  StronglySorted
    (fun a b => key_ge (total_cost_float a) (total_cost_float b)) (map snd S).
Proof.
  intros Hown Hnn Hs.
  induction Hs as [|p S Hs IH Hp]; simpl; [constructor|].
  apply Forall_cons in Hown as [[Hp1 _] Hown].
  apply Forall_cons in Hnn as [Hpn Hnn].
  constructor; [by apply IH|].
  rewrite Forall_map. rewrite Forall_forall in Hp, Hown, Hnn |- *.
  intros q Hq. simpl. destruct (Hown q Hq) as [Hq1 _].
  unfold key_ge. rewrite <- Hp1, <- Hq1, leb_ltb by auto.
  specialize (Hp q Hq). unfold desc in Hp. by rewrite Hp.
Qed.

Lemma ties_rows v (S : list (float * row)) :
  Forall own_key S ->
  filter (fun x => PrimFloat.eqb (total_cost_float x) v = true) (map snd S)
  = map snd (filter (tied v) S).
Proof.
  induction 1 as [|p S [Hp _] _ IH]; [done|]. simpl.
  rewrite !filter_cons, IH.
  destruct (decide (tied v p)) as [Ht|Ht]; unfold tied in Ht; rewrite Hp in Ht.
  - by rewrite decide_True.
  - by rewrite decide_False.
Qed.

Lemma sublist_map {B C : Type} (f : B -> C) (l1 l2 : list B) :
  l1 `sublist_of` l2 -> map f l1 `sublist_of` map f l2.
Proof. induction 1; simpl; by constructor. Qed.

Lemma aggregate_rows_no_nan records :
  Forall (fun x => is_nan (total_cost_float x) = false)
    (map snd (sort_desc (map bucket_row (fold_left add_record records [])))) ->
  no_nan (sort_desc (map bucket_row (fold_left add_record records []))).
Proof.
  set (S := sort_desc _). intros H.
  pose proof (sorted_buckets_own_key (fold_left add_record records [])) as Hown.
  fold S in Hown. unfold no_nan. rewrite Forall_map in H.
  rewrite Forall_forall in H, Hown |- *. intros p Hp.
  destruct (Hown p Hp) as [-> _]. by apply H.
Qed.

(** X6: when no bucket total is NaN, the rows [aggregate_costs] returns
    are in descending order of [total_cost], and rows with equal
    [total_cost] come in the order in which their pairs first appear in
    the records. *)
Theorem aggregate_sorted (records : list record) (out : list row) :
  aggregate_rows records = Ok out ->
  Forall (fun x => is_nan (total_cost_float x) = false) out ->
  StronglySorted
    (fun a b => key_ge (total_cost_float a) (total_cost_float b)) out /\
  forall v,
    map row_pair
      (filter (fun x => PrimFloat.eqb (total_cost_float x) v = true) out)
    `sublist_of` first_seen records.
Proof.
  intros ->%aggregate_rows_inv Hnn.
  pose proof (aggregate_rows_no_nan records Hnn) as Hno.
  set (totals := fold_left add_record records []) in *.
  pose proof (sorted_buckets_own_key totals) as Hown.
  split.
  - apply desc_rows; [done|done|].
    apply sort_desc_sorted. unfold no_nan in *. by rewrite <- sort_desc_perm.
  - intros v. rewrite ties_rows, sort_desc_stable by done.
    rewrite <- totals_first_seen. fold totals.
    assert (E : map fst totals = map row_pair (map snd (map bucket_row totals))).
    { rewrite !map_map. apply map_ext. intros b.
      by rewrite row_pair_bucket_row. }
    rewrite E. apply sublist_map, sublist_map, sublist_filter.
Qed.

(** ** More on the compactor *)

Lemma key_of_Ok x k : row_key x = Ok k -> key_of x = k.
Proof. unfold key_of. by intros ->. Qed.

Lemma keys_cases aggregated :
  if forallb (fun x => is_ok (row_key x)) aggregated
  then mapM (fun x => do k <- row_key x ;; Ok (k, x)) aggregated
       = Ok (map keyed aggregated)
  else exists e, InvalidRecordField e /\
         mapM (fun x => do k <- row_key x ;; Ok (k, x)) aggregated = Raise e.
Proof.
  induction aggregated as [|x l IH]; simpl; [done|].
  destruct (row_key x) as [k|e] eqn:Hk; simpl.
  - destruct (forallb _ l).
    + rewrite IH. simpl. unfold keyed. by rewrite (key_of_Ok x k).
    + destruct IH as (e & He & ->). simpl. eauto.
  - exists e. split; [|done]. by apply (py_float_raises _ _ Hk).
Qed.

Lemma compact_rows_cases aggregated k :
  if forallb (fun x => is_ok (row_key x)) aggregated
  then compact_rows aggregated k = Ok (slice_to k (sort_rows aggregated))
  else exists e, InvalidRecordField e /\ compact_rows aggregated k = Raise e.
Proof.
  unfold compact_rows, sorted_rows. pose proof (keys_cases aggregated) as H.
  destruct (forallb _ aggregated).
  - by rewrite H.
  - destruct H as (e & He & ->). simpl. eauto.
Qed.

(** X7: [compact_aggregated_costs] returns (and stores) rows whenever
    every [total_cost] coerces to a number, be it NaN, an absent one
    counting as 0.0; when some [total_cost] does not coerce, the coercion
    failure is raised to the caller and the store is left as it was. *)
Theorem compact_reports_invalid_total_cost (aggregated : list row) (k : Z)
    (sid : string) (st : store) :
  if forallb (fun x => is_ok (row_key x)) aggregated
  then exists out,
         compact_aggregated_costs aggregated k sid st
         = (Ok out, write_memory sid (set_last_compacted out) st)
  else exists e,
         InvalidRecordField e /\
         compact_aggregated_costs aggregated k sid st = (Raise e, st).
Proof.
  unfold compact_aggregated_costs.
  pose proof (compact_rows_cases aggregated k) as H.
  destruct (forallb _ aggregated).
  - rewrite H. eauto.
  - destruct H as (e & He & ->). eauto.
Qed.

Lemma compact_rows_inv aggregated k out :
  compact_rows aggregated k = Ok out -> out = slice_to k (sort_rows aggregated).
Proof.
  pose proof (compact_rows_cases aggregated k) as H.
  destruct (forallb _ aggregated).
  - rewrite H. by intros [= <-].
  - by destruct H as (e & _ & ->).
Qed.

(** X8: whatever the bound, negative ones included, the rows that
    [compact_aggregated_costs] returns are rows of its input, none of them
    more often than there.  A bound [k >= 0] keeps [min(k, len)] rows, a
    bound [k < 0] drops [-k] rows, or all of them when there are fewer. *)
Theorem compact_takes_from_input (aggregated : list row) (k : Z)
    (out : list row) :
  compact_rows aggregated k = Ok out ->
  out ⊆+ aggregated /\
  length out
  = if k <? 0 then (length aggregated - Z.to_nat (- k))%nat
    else Nat.min (Z.to_nat k) (length aggregated).
Proof.
  intros ->%compact_rows_inv. unfold slice_to.
  pose proof (sort_rows_perm aggregated) as Hp.
  assert (Hlen : length (sort_rows aggregated) = length aggregated)
    by (by rewrite Hp).
  destruct (k <? 0); rewrite length_take, Hlen.
  - split; [|lia]. etrans; [apply submseteq_take|].
    by apply Permutation_submseteq.
  - split; [|done]. etrans; [apply submseteq_take|].
    by apply Permutation_submseteq.
Qed.

Lemma own_key_keys (S : list (float * row)) :
  Forall own_key S ->
  mapM (fun x => do k <- row_key x ;; Ok (k, x)) (map snd S) = Ok S.
Proof.
  induction 1 as [|[k x] S (_ & Hk & _) _ IH]; simpl in *; [done|].
  by rewrite Hk, IH.
Qed.

(** X9: on the rows [aggregate_costs] returned, with no bucket total
    NaN, [compact_aggregated_costs] is a plain slice: the rows come sorted
    and the defensive sort leaves them in place. *)
Theorem compact_after_aggregate (records : list record) (rows : list row)
    (k : Z) :
  aggregate_rows records = Ok rows ->
  Forall (fun x => is_nan (total_cost_float x) = false) rows ->
  compact_rows rows k = Ok (slice_to k rows).
Proof.
  intros ->%aggregate_rows_inv Hnn.
  pose proof (aggregate_rows_no_nan records Hnn) as Hno.
  set (totals := fold_left add_record records []) in *.
  pose proof (sorted_buckets_own_key totals) as Hown.
  unfold compact_rows, sorted_rows. rewrite own_key_keys by done. simpl.
  rewrite sort_desc_fixed; [done|].
  apply sort_desc_sorted. unfold no_nan in *. by rewrite <- sort_desc_perm.
Qed.

(** ** The stages in sequence *)

Lemma memory_of_write sid upd (st : store) :
  memory_of sid (write_memory sid upd st) = upd (memory_of sid st).
Proof.
  unfold memory_of at 1. by rewrite write_memory_lookup, decide_True.
Qed.

(** X10: the workflow end to end.  On a non-empty list of records whose
    numbers coerce, [aggregate_costs], then [compact_aggregated_costs]
    with a bound of at least 1, then [build_cost_table] all return, the
    last with a report; [get_last_summary] then returns that report, and
    the memory of the session holds the result of each stage. *)
Theorem pipeline_runs (records : list record) (k : Z) (sid : string)
    (st : store) :
  records <> [] -> Forall (fun r => coercible r = true) records -> 1 <= k ->
  exists rows compacted text,
    let st1 := write_memory sid (set_last_aggregated rows) st in
    let st2 := write_memory sid (set_last_compacted compacted) st1 in
    let st3 := write_memory sid (set_last_summary text) st2 in
    aggregate_costs records sid st = (Ok rows, st1) /\
    compact_aggregated_costs rows k sid st1 = (Ok compacted, st2) /\
    build_cost_table (Structured compacted) sid st2 = (Ok text, st3) /\
    get_last_summary sid st3 = (text, st3) /\
    exists mem,
      st3 !! sid = Some mem /\ last_aggregated mem = Some rows /\
      last_compacted mem = Some compacted /\ last_summary mem = Some text.
Proof.
  intros Hne Hco Hk.
  pose proof (aggregate_rows_coercible records Hco) as Hagg.
  set (totals := fold_left add_record records []) in *.
  pose proof (sorted_buckets_own_key totals) as Hown.
  set (S := sort_desc (map bucket_row totals)) in *.
  assert (Hlen : (1 <= length S)%nat).
  { destruct (aggregate_row_count_aux records) as [Hl Hiff].
    fold totals in Hl. fold S in Hl. rewrite length_map in Hl.
    destruct (first_seen records) eqn:E; [exfalso; by apply Hne, Hiff|].
    rewrite Hl. simpl. lia. }
  assert (Hcomp : compact_rows (map snd S) k
                  = Ok (take (Z.to_nat k) (map snd (sort_desc S)))).
  { unfold compact_rows, sorted_rows. rewrite own_key_keys by done. simpl.
    unfold slice_to. by destruct (Z.ltb_spec k 0); [lia|]. }
  set (compacted := take (Z.to_nat k) (map snd (sort_desc S))) in *.
  assert (Hcne : compacted <> []).
  { intros E. apply (f_equal length) in E. unfold compacted in E.
    rewrite length_take, length_map, sort_desc_perm in E. simpl in E. lia. }
  assert (Hcc : Forall complete_row compacted).
  { unfold compacted. apply Forall_take. rewrite Forall_map, sort_desc_perm.
    eapply Forall_impl; [exact Hown|]. by intros p (_ & _ & Hp). }
  destruct (render_report_complete compacted Hcne Hcc) as [text Ht].
  exists (map snd S), compacted, text. simpl.
  unfold aggregate_costs, compact_aggregated_costs, build_cost_table,
    build_outcome, render_decoded.
  rewrite Hagg, Hcomp. destruct compacted as [|c0 cs] eqn:Ec; [done|].
  rewrite Ht. simpl. split; [done|]. split; [done|]. split; [done|].
  assert (Hnz : text <> "").
  { unfold render_report in Ht.
    destruct (table_lines _); [|done]. destruct (narrative _); [|done].
    simpl in Ht. injection Ht as <-. apply assemble_not_empty. }
  split.
  - unfold get_last_summary, _get_session_memory.
    rewrite write_memory_lookup, decide_True by done. simpl.
    by destruct text.
  - eexists. split; [by rewrite write_memory_lookup, decide_True|].
    by rewrite !memory_of_write.
Qed.

(** ** More on the reporter *)

Lemma report_not_fixed lines summary : assemble lines summary ∉ fixed_texts.
Proof.
  unfold fixed_texts. rewrite !not_elem_of_cons. repeat split; try done.
  apply not_elem_of_nil.
Qed.

(** X11: [build_cost_table] writes to the store exactly when it returns
    a report.  A returned text is either one of the two fixed texts, and
    then the store is as before the call, or it is a report, which is
    neither of them, and then it is what the session's [last_summary] now
    holds; a call that raises leaves the store as it was. *)
Theorem build_cost_table_store (input : table_input) (sid : string)
    (st : store) :
  match build_cost_table input sid st with
  | (Ok text, st') =>
      (text ∈ fixed_texts /\ st' = st) \/
      ((text ∉ fixed_texts) /\
       st' = write_memory sid (set_last_summary text) st /\
       fst (get_last_summary sid st') = text)
  | (Raise _, st') => st' = st
  end.
Proof.
  unfold build_cost_table.
  destruct (build_outcome input) as [[text|text]|e] eqn:E; [| |done].
  - left. split; [|done]. unfold fixed_texts.
    unfold build_outcome, render_decoded in E.
    repeat case_match; simplify_eq; try (apply elem_of_cons; by left);
      try (apply elem_of_cons; right; apply elem_of_cons; by left).
    all: unfold bind in *; repeat case_match; simplify_eq.
  - right.
    assert (H : exists lines summary, text = assemble lines summary).
    { unfold build_outcome, render_decoded, render_report in E.
      repeat case_match; simplify_eq;
        unfold bind in *; repeat case_match; simplify_eq; eauto. }
    destruct H as (lines & summary & ->).
    split; [apply report_not_fixed|]. split; [done|].
    rewrite get_last_summary_returns, stored_summary_write, decide_True by done.
    simpl. pose proof (assemble_not_empty lines summary) as Hne.
    by destruct (assemble lines summary).
Qed.

(** [<] on floats is transitive. *)
Lemma ltb_trans a b c :
  PrimFloat.ltb a b = true -> PrimFloat.ltb b c = true ->
  PrimFloat.ltb a c = true.
Proof.
  rewrite !FloatAxioms.ltb_spec. unfold SFltb. intros Hab Hbc.
  destruct (SFcompare (Prim2SF a) (Prim2SF b)) as [[]|] eqn:E1; try done.
  destruct (SFcompare (Prim2SF b) (Prim2SF c)) as [[]|] eqn:E2; try done.
  rewrite (SFcompare_lt_le _ _ _ E1); [done| | |].
  - by rewrite E2.
  - intros E. rewrite E in E2. by destruct (Prim2SF c).
  - intros E. rewrite E in E2. by destruct (Prim2SF b).
Qed.

(** At most, then strictly below: strictly below. *)
Lemma leb_ltb_trans a b c :
  is_nan a = false -> is_nan b = false -> is_nan c = false ->
  PrimFloat.leb a b = true -> PrimFloat.ltb b c = true ->
  PrimFloat.ltb a c = true.
Proof.
  intros Ha Hb Hc Hab Hbc. rewrite (leb_ltb b a) in Hab by done.
  apply negb_true_iff in Hab.
  destruct (PrimFloat.ltb a c) eqn:E; [done|].
  by rewrite (ltb_false_trans b a c Hb Ha Hc Hab E) in Hbc.
Qed.

Lemma float_total_inv x :
  float_total x = true ->
  total_cost x = Some (VFloat (total_cost_float x)) /\
  is_nan (total_cost_float x) = false.
Proof.
  unfold float_total, total_cost_float.
  destruct (total_cost x) as [[]|]; try done.
  intros H. split; [done|]. by apply negb_true_iff.
Qed.

(** The loop of [max]: the best row so far comes after rows that are
    strictly below it and before rows that are not above it. *)
Lemma max_loop_first before best mid rest :
  Forall (fun x => float_total x = true) (before ++ best :: mid ++ rest) ->
  Forall (fun x => PrimFloat.ltb (total_cost_float x) (total_cost_float best)
                   = true) before ->
  Forall (fun x => key_ge (total_cost_float best) (total_cost_float x)) mid ->
  exists top before' after,
    foldM max_step rest (best, VFloat (total_cost_float best))
    = Ok (top, VFloat (total_cost_float top)) /\
    before ++ best :: mid ++ rest = before' ++ top :: after /\
    Forall (fun x => PrimFloat.ltb (total_cost_float x) (total_cost_float top)
                     = true) before' /\
    Forall (fun x => key_ge (total_cost_float top) (total_cost_float x)) after.
Proof.
  revert before best mid.
  induction rest as [|x rest IH]; intros before best mid Hall Hb Hm; simpl.
  - exists best, before, mid. by rewrite app_nil_r.
  - assert (Hbest : float_total best = true).
    { rewrite Forall_app, Forall_cons in Hall. by destruct Hall as (_ & ? & _). }
    assert (Hx : float_total x = true).
    { rewrite Forall_app, Forall_cons, Forall_app, Forall_cons in Hall.
      by destruct Hall as (_ & _ & _ & ? & _). }
    destruct (float_total_inv best Hbest) as [_ Hnb].
    destruct (float_total_inv x Hx) as [Hxt Hnx].
    unfold max_step at 1. rewrite Hxt. simpl.
    destruct (PrimFloat.ltb (total_cost_float best) (total_cost_float x))
      eqn:Hlt.
    + destruct (IH (before ++ best :: mid) x []) as (top & b' & a' & H1 & H2 & H3).
      * by rewrite <- app_assoc.
      * apply Forall_app. split; [|apply Forall_cons; split; [done|]].
        -- eapply Forall_impl; [exact Hb|]. intros y Hy. simpl in Hy.
           by apply (ltb_trans _ _ _ Hy).
        -- rewrite Forall_forall in Hm |- *. intros y Hy.
           assert (Hfy : float_total y = true).
           { rewrite Forall_forall in Hall. apply Hall.
             rewrite elem_of_app, elem_of_cons, elem_of_app. auto. }
           destruct (float_total_inv y Hfy) as [_ Hny].
           apply (leb_ltb_trans _ (total_cost_float best)); auto.
           by apply Hm.
      * constructor.
      * exists top, b', a'. split; [done|]. split; [|done].
        rewrite <- H2. simpl. by rewrite <- !app_assoc.
    + destruct (IH before best (mid ++ [x])) as (top & b' & a' & H1 & H2 & H3).
      * by rewrite <- app_assoc.
      * done.
      * apply Forall_app. split; [done|]. apply Forall_singleton.
        unfold key_ge. by rewrite leb_ltb, Hlt.
      * exists top, b', a'. split; [done|]. split; [|done].
        rewrite <- H2. by rewrite <- !app_assoc.
Qed.

(** X12: the bucket the narrative names as the largest.  On rows whose
    [total_cost] are floats, none NaN, [max] returns the first row of the
    largest [total_cost]: the rows before it are strictly smaller and no
    row after it is larger. *)
Theorem max_is_first_largest (rows : list row) :
  rows <> [] -> Forall (fun x => float_total x = true) rows ->
  exists top before after,
    max_by_total_cost rows = Ok top /\
    rows = before ++ top :: after /\
    Forall (fun x => PrimFloat.ltb (total_cost_float x) (total_cost_float top)
                     = true) before /\
    Forall (fun x => key_ge (total_cost_float top) (total_cost_float x)) after.
Proof.
  intros Hne Hall. destruct rows as [|x rest]; [done|]. simpl.
  assert (Hx : float_total x = true) by (by apply Forall_cons in Hall as [? _]).
  destruct (float_total_inv x Hx) as [Hxt _]. rewrite Hxt. simpl.
  destruct (max_loop_first [] x [] rest) as (top & b' & a' & H1 & H2 & H3);
    [done|constructor|constructor|].
  rewrite H1. simpl. exists top, b', a'. by split.
Qed.

(** X13: a category subtotal adds the rows of its category only.  When
    every row has a ["category"], the rows of other categories can be
    removed without changing the subtotal, or the exception it raises; and
    the subtotal of a category that no row has is the [int] 0, which the
    narrative shows as 0.00. *)
Theorem category_total_own_rows (name : string) (rows : list row) :
  Forall (fun x => is_Some (category x)) rows ->
  category_total name rows
  = category_total name (filter (in_category name) rows) /\
  (filter (in_category name) rows = [] ->
   category_total name rows = Ok (VInt 0) /\
   format_money_value (VInt 0) = Ok "0.00").
Proof.
  intros Hall.
  assert (H : category_total name rows
              = category_total name (filter (in_category name) rows)).
  { unfold category_total. generalize (VInt 0).
    induction Hall as [|x rows [c Hc] _ IH]; intros acc; [done|].
    rewrite filter_cons.
    destruct (decide (in_category name x)) as [Hin|Hnin];
      unfold in_category in *; simpl; rewrite Hc; simpl.
    - rewrite Hc in Hin. injection Hin as ->. rewrite decide_True by done.
      destruct (do tc <- getitem (total_cost x);; py_add acc tc); simpl;
        [apply IH|done].
    - rewrite decide_False by congruence. apply IH. }
  split; [done|]. intros E. rewrite H, E. by split.
Qed.

(** X14: the dataset of [load_mock_wildfire_costs] is listed the way
    [aggregate_costs] returns it.  Whatever the year, the session and the
    store, the records loaded have twelve distinct (region, category)
    pairs in descending order of cost, so aggregating them returns one row
    per record, with the record's entries, in the order of the dataset;
    the load itself writes the year and the records to the session. *)
Theorem load_then_aggregate (year : Z) (sid : string) (st : store) :
  exists data,
    load_mock_wildfire_costs year sid st
    = (Ok data,
       write_memory sid
         (fun mem => set_last_raw_records data (set_last_year year mem)) st) /\
    length data = 12%nat /\
    aggregate_rows data = Ok (map as_row data).
Proof. exists mock_data. repeat split. Qed.

End Pipeline.

(** ** The lookup service *)

Lemma truthy_py_or a b :
  Lookup.truthy (Lookup.py_or a b) = Lookup.truthy a || Lookup.truthy b.
Proof. unfold Lookup.py_or. by destruct (Lookup.truthy a) eqn:E. Qed.

Lemma has_credentials_keys env :
  Lookup.has_credentials env
  = Lookup.truthy (Lookup.SEARCH_API_KEY env) &&
    Lookup.truthy (Lookup.SEARCH_CSE_ID env).
Proof.
  unfold Lookup.has_credentials, Lookup.SEARCH_API_KEY, Lookup.SEARCH_CSE_ID.
  by rewrite !truthy_py_or.
Qed.

(** X15: [google_search] asks for both credentials, each from its
    preferred variable or, when that one is unset or empty, from its
    fallback.  When one of the two is missing it returns its configuration
    text and leaves the store as it was; when both are there it returns
    another text. *)
Theorem search_needs_credentials (env : Lookup.environ)
    (resp : Lookup.response) (query sid : string) (st : store) :
  (Lookup.has_credentials env = false ->
   Lookup.google_search env resp query sid st
   = (Lookup.not_configured_text, st)) /\
  (Lookup.has_credentials env = true ->
   fst (Lookup.google_search env resp query sid st)
   <> Lookup.not_configured_text).
Proof.
  rewrite has_credentials_keys. unfold Lookup.google_search.
  destruct (Lookup.truthy (Lookup.SEARCH_API_KEY env)),
    (Lookup.truthy (Lookup.SEARCH_CSE_ID env)); simpl;
    (split; [try done|]); try done.
  intros _. destruct resp as [e|[items|]]; simpl; try done.
  by destruct (take 3 items).
Qed.

(** X16: [google_search] writes to the store only when it has results
    to show.  Then the text it returns is the heading followed by one
    bullet for each of the first three items at most, and the session's
    memory holds the query and that text, its other fields being as
    before; on every other path (credentials missing, request failed, no
    items) the store is as it was.  In all cases the store after the call
    is the one [google_search] gives in a sequence of calls. *)
Theorem search_store_effect (env : Lookup.environ) (resp : Lookup.response)
    (query sid : string) (st : store) :
  let text := fst (Lookup.google_search env resp query sid st) in
  let st' := snd (Lookup.google_search env resp query sid st) in
  st' = google_search query sid
          (if Lookup.writes env resp then Some text else None) st /\
  (Lookup.writes env resp = false -> st' = st) /\
  (Lookup.writes env resp = true ->
   text = "Top results from Google Search:" +:+ nl +:+ nl +:+
          join nl (map Lookup.bullet (Lookup.found_items resp)) /\
   (1 <= length (Lookup.found_items resp) <= 3)%nat /\
   exists mem,
     st' !! sid = Some mem /\
     stored_search mem = Some (query, text) /\
     last_year mem = last_year (memory_of sid st) /\
     last_raw_records mem = last_raw_records (memory_of sid st) /\
     last_aggregated mem = last_aggregated (memory_of sid st) /\
     last_compacted mem = last_compacted (memory_of sid st) /\
     last_summary mem = last_summary (memory_of sid st)).
Proof.
  unfold Lookup.writes. rewrite has_credentials_keys.
  unfold Lookup.google_search, google_search.
  destruct (Lookup.truthy (Lookup.SEARCH_API_KEY env)),
    (Lookup.truthy (Lookup.SEARCH_CSE_ID env)); simpl; try done.
  destruct resp as [e|[items|]]; simpl; try done.
  assert (Hlen : (length (take 3 items) <= 3)%nat)
    by (rewrite length_take; lia).
  destruct (take 3 items) as [|it its] eqn:E; simpl; [done|].
  split; [done|]. split; [done|]. intros _. split; [done|].
  split; [simpl in Hlen; lia|].
  rewrite write_memory_insert. eexists.
  split; [apply lookup_insert_eq|]. by repeat split.
Qed.

(** ** The end-to-end scenario *)

Example scenario_aggregate :
  aggregate_rows float_of_digits scenario_records = Ok scenario_rows.
Proof. reflexivity. Qed.

Example scenario_compact :
  compact_rows float_of_digits scenario_rows 1
  = Ok [float_row "South" "aircraft" 150 7].
Proof. reflexivity. Qed.

Example scenario_render :
  fst (build_cost_table float_of_digits json_loads_literals
         (Structured [float_row "South" "aircraft" 150 7]) "default" ∅)
  = Ok "Region | Category | Total Cost ($) | Hours
---|---|---|---
South | aircraft | 150.00 | 7.0

Here's a summary of the wildfire costs based on the synthetic data:

**Key Insights:**
- **Largest Single Bucket:** South – aircraft at $150.00.
- **By Category:** Aircraft ($150.00), Personnel ($0.00), Equipment ($0.00).
- Aircraft is the dominant cost driver across regions, with personnel generally higher than equipment.".
Proof. vm_compute. reflexivity. Qed.

(** A text that is not a number is reported, a numeric text is coerced. *)
Example invalid_cost_raises :
  aggregate_costs float_of_digits
    [mkRecord (Some (LStr "South")) (Some (LStr "aircraft"))
       (Some (VStr "n/a")) None] "default" ∅
  = (Raise ValueError, ∅).
Proof. reflexivity. Qed.

Example numeric_text_coerces :
  aggregate_rows float_of_digits
    [mkRecord (Some (LStr "South")) None (Some (VStr "150")) (Some (VInt 7))]
  = Ok [mkRow (Some (LStr "South")) (Some LNone) (Some (VFloat 150))
          (Some (VFloat 7))].
Proof. reflexivity. Qed.

(** ** Instances and counterexamples *)

(** Rounding inside a bucket: on [rounding_records] the [total_cost] of
    the rows sum to 10000000000000002 and the [cost] of the records, added
    in order, to 10000000000000000, the exact sum being
    10000000000000003: the sums agree within the tolerance only. *)
Example rounding_inside_buckets :
  let rows := [float_row "A" "x" 1e16 0; float_row "B" "x" 2 0] in
  let costs := map (cost_of float_of_digits) rounding_records in
  aggregate_rows float_of_digits rounding_records = Ok rows /\
  costs = [1; 1e16; 1; 1]%float /\
  fsum (map total_cost_float rows) = 10000000000000002%float /\
  fsum costs = 10000000000000000%float /\
  PrimFloat.eqb (fsum (map total_cost_float rows)) (fsum costs) = false /\
  exact_sum (map total_cost_float rows) = 10000000000000002 /\
  exact_sum costs = 10000000000000003.
Proof. repeat split; reflexivity. Qed.

(** With a negative cost the sums can cancel, and no tolerance holds:
    the rows of [cancelling_records] sum to 0.0, the costs to 2.0. *)
Example cancelling_costs :
  let rows := [float_row "A" "x" 1e16 0; float_row "B" "x" (-1e16) 0] in
  let costs := map (cost_of float_of_digits) cancelling_records in
  aggregate_rows float_of_digits cancelling_records = Ok rows /\
  fsum (map total_cost_float rows) = 0%float /\
  fsum costs = 2%float /\
  fsum_compensated (map total_cost_float rows) = 0%float /\
  fsum_compensated costs = 2%float.
Proof. repeat split; reflexivity. Qed.

(** C1, as stated, fails beyond any tolerance: the costs of
    [overflow_records] are finite and not negative, and add up to the
    largest float, 1.7976931348623157e308, exactly to that float and
    [2^918].  Bucket A rounds its two costs up to the largest float; with
    the [2^970] of bucket B the [total_cost] of the two rows are then half
    a spacing above it, and their sum is [inf].  Both grand totals come
    out the same when added with a compensation term. *)
Lemma aggregate_total_overflows :
  let rows := [float_row "A" "x" 0x1.fffffffffffffp+1023 0;
               float_row "B" "x" 0x1p+970 0] in
  let costs := map (cost_of float_of_digits) overflow_records in
  let totals := map total_cost_float rows in
  costs = [0x1p+970; 0x1.ffffffffffffep+1023; 0x1.0000000000001p+970]%float /\
  Forall (fun c => nonneg_finite c = true) costs /\
  aggregate_rows float_of_digits overflow_records = Ok rows /\
  fsum costs = 0x1.fffffffffffffp+1023%float /\
  fsum totals = infinity /\
  PrimFloat.eqb (fsum totals) (fsum costs) = false /\
  fsum_compensated costs = 0x1.fffffffffffffp+1023%float /\
  fsum_compensated totals = infinity /\
  zsum units costs = units 0x1.fffffffffffffp+1023 + 2 ^ 1992 /\
  zsum units totals = units 0x1.fffffffffffffp+1023 + 2 ^ 2044.
Proof.
  repeat split; try (vm_compute; reflexivity). repeat constructor.
Qed.

Lemma aggregate_one_row_per_pair_witness :
  let exact :=
    zsum (fun r => units (cost_of float_of_digits r)) rounding_records in
  let costs := fsum (map (cost_of float_of_digits) rounding_records) in
  exists out,
    fst (aggregate_costs float_of_digits rounding_records "default" ∅) = Ok out /\
    NoDup (map row_pair out) /\
    (forall p, p ∈ map row_pair out
               <-> p ∈ map record_key rounding_records) /\
    Forall (row_sums float_of_digits rounding_records) out /\
    within 4 (zsum (fun x => units (total_cost_float x)) out) exact /\
    within 8 (units (fsum (map total_cost_float out))) exact /\
    within 4 (units costs) exact /\
    within 16 (units (fsum (map total_cost_float out))) (units costs).
Proof.
  intros exact costs.
  destruct (aggregate_one_row_per_pair float_of_digits rounding_records
              "default" ∅) as (out & Hout & H1 & H2 & H3 & H4).
  { repeat constructor. }
  exists out. split; [done|]. split; [done|]. split; [done|].
  split; [done|].
  change (Ok [float_row "A" "x" 1e16 0; float_row "B" "x" 2 0] = Ok out)
    in Hout.
  injection Hout as <-.
  apply H4; [repeat constructor|reflexivity|reflexivity].
Defined.


Lemma compact_idempotent_witness :
  let A := [float_row "North" "personnel" 30 0;
            float_row "South" "aircraft" 150 7;
            float_row "South" "equipment" 30 0] in
  exists out,
    fst (compact_aggregated_costs float_of_digits A 2 "default" ∅) = Ok out /\
    fst (compact_aggregated_costs float_of_digits out 2 "default" ∅) = Ok out.
Proof.
  intros A.
  apply (compact_idempotent float_of_digits A 2 "default" "default" ∅ ∅).
  - lia.
  - repeat constructor.
Defined.

(** C3, as stated, fails: the same two rows in the two orders give
    reports whose table lines are in different orders. *)
Lemma render_depends_on_order :
  let a := float_row "South" "aircraft" 150 7 in
  let b := float_row "North" "personnel" 30 0 in
  [a; b] ≡ₚ [b; a] /\
  table_lines float_of_digits [a; b]
  = Ok ["South | aircraft | 150.00 | 7.0"; "North | personnel | 30.00 | 0.0"] /\
  table_lines float_of_digits [b; a]
  = Ok ["North | personnel | 30.00 | 0.0"; "South | aircraft | 150.00 | 7.0"] /\
  fst (build_cost_table float_of_digits json_loads_literals
         (Structured [a; b]) "default" ∅)
  <> fst (build_cost_table float_of_digits json_loads_literals
            (Structured [b; a]) "default" ∅).
Proof.
  split; [apply perm_swap|]. split; [reflexivity|]. split; [reflexivity|].
  vm_compute. discriminate.
Qed.

Lemma build_cost_table_deterministic_witness :
  let a := float_row "South" "aircraft" 150 7 in
  let b := float_row "North" "personnel" 30 0 in
  exists text1 text2 lines1 lines2 summary1 summary2,
    fst (build_cost_table float_of_digits json_loads_literals
           (Structured [a; b]) "default" ∅) = Ok text1 /\
    fst (build_cost_table float_of_digits json_loads_literals
           (Structured [b; a]) "other" ∅) = Ok text2 /\
    table_lines float_of_digits [a; b] = Ok lines1 /\
    table_lines float_of_digits [b; a] = Ok lines2 /\
    text1 = assemble lines1 summary1 /\ text2 = assemble lines2 summary2 /\
    lines1 ≡ₚ lines2.
Proof.
  intros a b.
  destruct (proj2 (build_cost_table_deterministic float_of_digits
                     json_loads_literals (Structured [a; b])
                     "default" "other" ∅ ∅)
              [a; b] [b; a] _ _ ltac:(discriminate) (perm_swap b a [])
              eq_refl eq_refl)
    as (lines1 & lines2 & s1 & s2 & H).
  eexists _, _, lines1, lines2, s1, s2.
  split; [reflexivity|]. split; [reflexivity|]. exact H.
Defined.

(** C6, as stated, fails: retrieval for a session the store does not know
    adds that session to the store. *)
Lemma get_last_summary_creates_memory :
  (∅ : store) !! "default" = None /\
  snd (get_last_summary "default" ∅) !! "default" = Some new_memory /\
  snd (get_last_summary "default" ∅) <> ∅.
Proof.
  split; [reflexivity|]. split; [reflexivity|].
  intros E. apply (f_equal (fun m : store => m !! "default")) in E.
  discriminate E.
Qed.

Lemma get_last_summary_store_witness :
  let st : store := {[ "default" := set_last_summary "report" new_memory ]} in
  snd (get_last_summary "default" st) = st /\
  snd (get_last_summary "other" st) = <["other" := new_memory]> st.
Proof.
  intros st.
  pose proof (get_last_summary_store "default" st) as (_ & H1 & _).
  pose proof (get_last_summary_store "other" st) as (_ & _ & H2).
  split.
  - apply H1. exists (set_last_summary "report" new_memory). reflexivity.
  - apply H2. reflexivity.
Defined.

Lemma build_cost_table_empty_witness :
  build_cost_table float_of_digits json_loads_literals (Serialized "[]")
    "default" ∅
  = (Ok "No cost data available.", ∅) /\
  build_cost_table float_of_digits json_loads_literals (Structured [])
    "default" ∅
  = (Ok "No cost data available.", ∅).
Proof.
  split.
  - apply (build_cost_table_empty float_of_digits json_loads_literals
             (Serialized "[]") "default" ∅). reflexivity.
  - apply (build_cost_table_empty float_of_digits json_loads_literals
             (Structured []) "default" ∅). reflexivity.
Defined.



(** An [int] in ["total_cost"] renders as the float of the same value. *)
Example integer_total_renders :
  fst (build_cost_table float_of_digits json_loads_literals
         (Structured
            [ float_row "South" "aircraft" 150 7;
              mkRow (Some (LStr "North")) (Some (LStr "personnel"))
                (Some (VInt 30)) None ]) "default" ∅)
  = fst (build_cost_table float_of_digits json_loads_literals
           (Structured
              [ float_row "South" "aircraft" 150 7;
                float_row "North" "personnel" 30 0 ]) "default" ∅).
Proof. vm_compute. reflexivity. Qed.

Lemma get_last_summary_after_witness :
  exists text,
    fst (build_cost_table float_of_digits json_loads_literals
           (Structured scenario_rows) "default" ∅) = Ok text /\
    fst (get_last_summary "default"
           (snd (build_cost_table float_of_digits json_loads_literals
                   (Structured scenario_rows) "default" ∅))) = text.
Proof.
  eexists.
  apply (proj2 (proj2 (get_last_summary_after float_of_digits
                         json_loads_literals [] "default"))
           (Structured scenario_rows) _ ∅).
  vm_compute. reflexivity.
Defined.

(** The sentinel while the session has no report, across calls for other
    sessions and calls that produce no report; then the report. *)
Example trace_without_report :
  fst (get_last_summary "s"
         (run float_of_digits json_loads_literals
            [ LoadCall 2024 "s";
              AggregateCall scenario_records "s";
              RenderCall (Structured scenario_rows) "t";
              RenderCall (Structured []) "s" ] ∅))
  = no_summary_text.
Proof. vm_compute. reflexivity. Qed.

Example trace_with_report :
  Ok (fst (get_last_summary "s"
             (run float_of_digits json_loads_literals
                [ RenderCall (Structured scenario_rows) "s";
                  CompactCall scenario_rows 1 "s";
                  RenderCall (Serialized "[]") "s";
                  LastSummaryCall "t" ] ∅)))
  = render_report float_of_digits scenario_rows.
Proof. vm_compute. reflexivity. Qed.

(** ** Instances of the further properties *)

Lemma aggregate_row_count_witness :
  length scenario_rows = length (first_seen scenario_records) /\
  (length scenario_rows <= length scenario_records)%nat /\
  (scenario_rows = [] <-> scenario_records = []).
Proof.
  apply (aggregate_row_count float_of_digits scenario_records scenario_rows).
  reflexivity.
Defined.

(** Two buckets with the same total: North, met first, comes first. *)
Lemma aggregate_sorted_witness :
  let records := [ float_record "North" "personnel" 30 0;
                   float_record "South" "aircraft" 100 5;
                   float_record "West" "equipment" 30 0;
                   float_record "South" "aircraft" 50 2 ] in
  let out := [ float_row "South" "aircraft" 150 7;
               float_row "North" "personnel" 30 0;
               float_row "West" "equipment" 30 0 ] in
  aggregate_rows float_of_digits records = Ok out /\
  StronglySorted
    (fun a b => key_ge (total_cost_float a) (total_cost_float b)) out /\
  forall v,
    map row_pair
      (filter (fun x => PrimFloat.eqb (total_cost_float x) v = true) out)
    `sublist_of` first_seen records.
Proof.
  intros records out. split; [reflexivity|].
  apply (aggregate_sorted float_of_digits records out).
  - reflexivity.
  - repeat constructor.
Defined.

Lemma compact_takes_from_input_witness :
  let A := [float_row "North" "personnel" 30 0;
            float_row "South" "aircraft" 150 7;
            float_row "South" "equipment" 20 0] in
  let out := [float_row "South" "aircraft" 150 7;
              float_row "North" "personnel" 30 0] in
  compact_rows float_of_digits A (-1) = Ok out /\
  out ⊆+ A /\ length out = (length A - Z.to_nat (- (-1)))%nat.
Proof.
  intros A out. split; [reflexivity|].
  apply (compact_takes_from_input float_of_digits A (-1) out). reflexivity.
Defined.

Lemma compact_after_aggregate_witness :
  compact_rows float_of_digits scenario_rows 1 = Ok (slice_to 1 scenario_rows).
Proof.
  apply (compact_after_aggregate float_of_digits scenario_records).
  - reflexivity.
  - repeat constructor.
Defined.

Lemma pipeline_runs_witness :
  exists rows compacted text,
    let st1 := write_memory "default" (set_last_aggregated rows) ∅ in
    let st2 := write_memory "default" (set_last_compacted compacted) st1 in
    let st3 := write_memory "default" (set_last_summary text) st2 in
    aggregate_costs float_of_digits scenario_records "default" ∅
    = (Ok rows, st1) /\
    compact_aggregated_costs float_of_digits rows 6 "default" st1
    = (Ok compacted, st2) /\
    build_cost_table float_of_digits json_loads_literals
      (Structured compacted) "default" st2 = (Ok text, st3) /\
    get_last_summary "default" st3 = (text, st3) /\
    exists mem,
      st3 !! "default" = Some mem /\ last_aggregated mem = Some rows /\
      last_compacted mem = Some compacted /\ last_summary mem = Some text.
Proof.
  apply (pipeline_runs float_of_digits json_loads_literals scenario_records 6
           "default" ∅).
  - discriminate.
  - repeat constructor.
  - lia.
Defined.

(** With two rows of the largest total, the first of them is named. *)
Lemma max_is_first_largest_witness :
  let rows := [ float_row "North" "personnel" 30 0;
                float_row "South" "aircraft" 150 7;
                float_row "West" "aircraft" 150 3 ] in
  exists top before after,
    max_by_total_cost rows = Ok top /\
    rows = before ++ top :: after /\
    Forall (fun x => PrimFloat.ltb (total_cost_float x) (total_cost_float top)
                     = true) before /\
    Forall (fun x => key_ge (total_cost_float top) (total_cost_float x)) after.
Proof.
  intros rows. apply (max_is_first_largest rows).
  - discriminate.
  - repeat constructor.
Defined.

Example max_names_first_of_equals :
  max_by_total_cost
    [ float_row "North" "personnel" 30 0;
      float_row "South" "aircraft" 150 7;
      float_row "West" "aircraft" 150 3 ]
  = Ok (float_row "South" "aircraft" 150 7).
Proof. reflexivity. Qed.

Lemma category_total_own_rows_witness :
  category_total "aircraft" scenario_rows
  = category_total "aircraft" (filter (in_category "aircraft") scenario_rows) /\
  category_total "equipment" scenario_rows = Ok (VInt 0).
Proof.
  split.
  - apply (category_total_own_rows "aircraft" scenario_rows).
    repeat constructor; by eexists.
  - apply (category_total_own_rows "equipment" scenario_rows).
    + repeat constructor; by eexists.
    + reflexivity.
Defined.

(** An empty preferred key falls back; newlines in a snippet are replaced
    and its ends stripped; the fourth item is left out. *)
Example search_with_results :
  Lookup.google_search
    (Lookup.mkEnviron (Some "") (Some "key") (Some "cx") None)
    (Lookup.Payload (Some
       [ Lookup.mkItem (Some "Costs") (Some (" rising" +:+ nl +:+ "fast "))
           (Some "https://a.example");
         Lookup.mkItem None None None;
         Lookup.mkItem (Some "Third") None (Some "https://c.example");
         Lookup.mkItem (Some "Fourth") None None ]))
    "wildfire costs" "default" ∅
  = let text :=
      "Top results from Google Search:

- **Costs** – rising fast (https://a.example)
- **Untitled result** –  ()
- **Third** –  (https://c.example)" in
    (text,
     {[ "default" := set_last_search "wildfire costs" text new_memory ]}).
Proof. vm_compute. reflexivity. Qed.

Example search_without_credentials :
  Lookup.google_search (Lookup.mkEnviron (Some "") None (Some "cx") None)
    (Lookup.Payload None) "wildfire costs" "default" ∅
  = (Lookup.not_configured_text, ∅).
Proof. reflexivity. Qed.
